(** * MaterVis: crystallographic geometry and bonding engine

    A shallow embedding of the pure core of the viewer:
    - [src/utils/lattice.ts]: [wrapFractional], [minimumImage],
      [periodicDistance];
    - [src/crystal.ts]: the [Lattice], [Site] and [CrystalStructure]
      records and [latticeParamsToMatrix];
    - [src/utils/bonds.ts]: the [COVALENT_RADII] table, [getCovalentRadius]
      and [calculateBonds];
    - further code of these files and of their callers: [fracToCartesian],
      [generateSupercellTranslations], [getAtomRadius] of
      [src/rendering/atoms.ts], [identifyPolyhedronType] of
      [src/rendering/polyhedra.ts] and [createSiCrystal] of [src/demo.ts].

    Two readings of a JavaScript [number].
    - In the main development a [number] is a real number ([R]): arithmetic
      is exact, and there is neither NaN nor an infinity.  [Math.floor] is
      the integer floor, [Math.round] rounds to the nearest integer with
      ties going towards plus infinity, as ECMAScript specifies.  The
      statements proved there are about loops, order, counts, comparisons
      and clamps, or are stated on the differences that the code computes.
    - [Module Double] gives [wrapFractional], [minimumImage],
      [periodicDistance] and [latticeParamsToMatrix] on IEEE binary64
      numbers, every operation rounded as the code rounds it; it is used
      where rounding decides what the code returns.

    Other conventions.
    - An array index is a [nat]; [number[]] is a list.
    - Reading a property of an object gives [option R]: [None] is
      [undefined].  The main development reads own properties only;
      [Module Proto] reads the two element tables through the prototype
      chain, at the names listed in [Object_prototype_names].
    - The optional [pairOverrides] argument is an [option (gmap string R)].
    - A [for] loop over an index range is a left fold over [seq]; the
      [bonds.push] of the loop body appends at the end of the accumulator. *)

From Stdlib Require PrimFloat FloatOps SpecFloat Uint63.
From Stdlib Require Import Reals Lra Lia ZArith List Sorted.
From stdpp Require Import gmap strings list sorting pretty.

Open Scope R_scope.

(** ** JavaScript primitives *)

Module Js.

(** [Math.floor] *)
Definition Math_floor (x : R) : R := IZR (Zfloor x).

(** [Math.round]: the nearest integer, a tie going up. *)
Definition Math_round (x : R) : R := IZR (Zfloor (x + 1/2)).

Definition Math_max (x y : R) : R := Rmax x y.
Definition Math_min (x y : R) : R := Rmin x y.

(** [x <= y] as a boolean test. *)
Definition leb (x y : R) : bool :=
  if Rle_dec x y then true else false.

(** Truthiness of a value that is a number or [undefined]: [undefined]
    and [0] are falsy. *)
Definition truthy (v : option R) : bool :=
  match v with
  | Some r => if Req_dec_T r 0 then false else true
  | None => false
  end.

(** [v || w] between two such values. *)
Definition or (v w : option R) : option R :=
  if truthy v then v else w.

(** [v || d] where [d] is a number: the result is a number. *)
Definition or_num (v : option R) (d : R) : R :=
  match or v (Some d) with
  | Some r => r
  | None => d
  end.

(** [v[k]] on a [number[]]; the model reads [0] outside the array. *)
Definition at1 (v : list R) (k : nat) : R := nth k v 0.

(** [m[i][j]] on a [number[][]]. *)
Definition at2 (m : list (list R)) (i j : nat) : R := nth j (nth i m []) 0.

End Js.

(** ** [src/utils/lattice.ts] *)

Definition wrapFractional (frac : list R) : list R :=
  map (fun f => f - Js.Math_floor f) frac.

Definition minimumImage (frac : list R) : list R :=
  map (fun f => f - Js.Math_round f) frac.

Definition periodicDistance (frac1 frac2 : list R)
    (latticeMatrix : list (list R)) : R :=
  let df :=
    [ Js.at1 frac2 0 - Js.at1 frac1 0;
      Js.at1 frac2 1 - Js.at1 frac1 1;
      Js.at1 frac2 2 - Js.at1 frac1 2 ] in
  let dfWrapped := minimumImage df in
  let dr :=
    [ Js.at1 dfWrapped 0 * Js.at2 latticeMatrix 0 0
      + Js.at1 dfWrapped 1 * Js.at2 latticeMatrix 1 0
      + Js.at1 dfWrapped 2 * Js.at2 latticeMatrix 2 0;
      Js.at1 dfWrapped 0 * Js.at2 latticeMatrix 0 1
      + Js.at1 dfWrapped 1 * Js.at2 latticeMatrix 1 1
      + Js.at1 dfWrapped 2 * Js.at2 latticeMatrix 2 1;
      Js.at1 dfWrapped 0 * Js.at2 latticeMatrix 0 2
      + Js.at1 dfWrapped 1 * Js.at2 latticeMatrix 1 2
      + Js.at1 dfWrapped 2 * Js.at2 latticeMatrix 2 2 ] in
  sqrt (Js.at1 dr 0 * Js.at1 dr 0
        + Js.at1 dr 1 * Js.at1 dr 1
        + Js.at1 dr 2 * Js.at1 dr 2).

(** ** [src/crystal.ts] *)

Record Lattice := mkLattice {
  matrix : list (list R);
  lattice_a : R;
  lattice_b : R;
  lattice_c : R;
  lattice_alpha : R;
  lattice_beta : R;
  lattice_gamma : R
}.

Record Site := mkSite {
  element : string;
  frac : list R;
  occupancy : R;
  label : option string;
  disorder_group : option string;
  oxidation_state : option R;
  cartesian : option (list R)
}.

(** The optional [site_properties] and [style] fields are presentation
    data that none of the functions below reads; they are left out. *)
Record CrystalStructure := mkCrystal {
  lattice : Lattice;
  pbc : list bool;
  sites : list Site
}.

Definition latticeParamsToMatrix (a b c alpha beta gamma : R)
    : list (list R) :=
  let alphaRad := alpha * PI / 180 in
  let betaRad := beta * PI / 180 in
  let gammaRad := gamma * PI / 180 in
  let bx := b * cos gammaRad in
  let by_ := b * sin gammaRad in
  let cx := c * cos betaRad in
  let cy := c * (cos alphaRad - cos betaRad * cos gammaRad) / sin gammaRad in
  let cz := sqrt (c * c - cx * cx - cy * cy) in
  [ [a; 0; 0];
    [bx; by_; 0];
    [cx; cy; cz] ].

(** ** [src/utils/bonds.ts] *)

(** Covalent radii in angstrom, in the order of the object literal. *)
Definition COVALENT_RADII : gmap string R :=
  list_to_map
    [ ("H", 0.32); ("He", 0.46); ("Li", 1.33); ("Be", 1.02); ("B", 0.85);
      ("C", 0.75); ("N", 0.71); ("O", 0.66); ("F", 0.57); ("Ne", 0.58);
      ("Na", 1.55); ("Mg", 1.39); ("Al", 1.26); ("Si", 1.16); ("P", 1.11);
      ("S", 1.03); ("Cl", 0.99); ("Ar", 1.07); ("K", 1.96); ("Ca", 1.71);
      ("Sc", 1.48); ("Ti", 1.36); ("V", 1.34); ("Cr", 1.22); ("Mn", 1.19);
      ("Fe", 1.16); ("Co", 1.11); ("Ni", 1.10); ("Cu", 1.12); ("Zn", 1.18);
      ("Ga", 1.24); ("Ge", 1.21); ("As", 1.21); ("Se", 1.16); ("Br", 1.14);
      ("Kr", 1.17) ].

Record Bond := mkBond {
  atom1 : nat;
  atom2 : nat;
  distance : R;
  cutoff : R
}.

(** [COVALENT_RADII[element] || 1.0] *)
Definition getCovalentRadius (element : string) : R :=
  Js.or_num (COVALENT_RADII !! element) 1.0.

Section PairCutoff.

Variables (scaleFactor minCut maxCut : R).
Variable pairOverrides : option (gmap string R).

(** The two template strings built for a pair of elements. *)
Definition pairKey (element1 element2 : string) : string :=
  element1 +:+ "-" +:+ element2.

(** [pairOverrides[key]]; the source reads it only after the guard has
    found [pairOverrides] to be an object. *)
Definition override_at (key : string) : option R :=
  match pairOverrides with
  | Some po => po !! key
  | None => None
  end.

(** The guard
    [pairOverrides && (pairOverrides[pairKey1] || pairOverrides[pairKey2])]. *)
Definition override_guard (element1 element2 : string) : bool :=
  match pairOverrides with
  | Some po =>
      Js.truthy (Js.or (po !! pairKey element1 element2)
                       (po !! pairKey element2 element1))
  | None => false
  end.

(** The cutoff that the loop body assigns to a pair of elements: the
    statements from [let cutoff = minCut] to the end of the
    [if]/[else]. *)
Definition pair_cutoff (element1 element2 : string) : R :=
  let cutoff := minCut in
  let pairKey1 := pairKey element1 element2 in
  let pairKey2 := pairKey element2 element1 in
  if override_guard element1 element2 then
    Js.or_num (Js.or (override_at pairKey1) (override_at pairKey2)) cutoff
  else
    let r1 := Js.or_num (COVALENT_RADII !! element1) 1.0 in
    let r2 := Js.or_num (COVALENT_RADII !! element2) 1.0 in
    let cutoff := scaleFactor * (r1 + r2) in
    Js.Math_max minCut (Js.Math_min maxCut cutoff).

End PairCutoff.

(** One iteration of the inner loop, on the pair [(i, j)]. *)
Definition visit_pair (crystal : CrystalStructure)
    (scaleFactor minCut maxCut : R) (pairOverrides : option (gmap string R))
    (i j : nat) (bonds : list Bond) : list Bond :=
  match sites crystal !! i, sites crystal !! j with
  | Some site1, Some site2 =>
      let cutoff :=
        pair_cutoff scaleFactor minCut maxCut pairOverrides
                    (element site1) (element site2) in
      let distance :=
        periodicDistance (frac site1) (frac site2)
                         (matrix (lattice crystal)) in
      if Js.leb distance cutoff
      then bonds ++ [mkBond i j distance cutoff]
      else bonds
  | _, _ => bonds
  end.

(** [for (let j = i + 1; j < crystal.sites.length; j++)] *)
Definition inner_loop (crystal : CrystalStructure)
    (scaleFactor minCut maxCut : R) (pairOverrides : option (gmap string R))
    (i : nat) (bonds : list Bond) : list Bond :=
  fold_left
    (fun bonds j =>
       visit_pair crystal scaleFactor minCut maxCut pairOverrides i j bonds)
    (seq (i + 1) (length (sites crystal) - (i + 1))) bonds.

(** [for (let i = 0; i < crystal.sites.length; i++)] around the inner
    loop, starting from [const bonds = []]. *)
Definition calculateBonds (crystal : CrystalStructure)
    (scaleFactor minCut maxCut : R) (pairOverrides : option (gmap string R))
    : list Bond :=
  fold_left
    (fun bonds i =>
       inner_loop crystal scaleFactor minCut maxCut pairOverrides i bonds)
    (seq 0 (length (sites crystal))) [].

(** The default values of the optional parameters. *)
Definition default_scaleFactor : R := 1.1.
Definition default_minCut : R := 0.7.
Definition default_maxCut : R := 3.2.

(** ** Further code of the same files and of their callers *)

(** [src/crystal.ts], [fracToCartesian]: the row vector [frac] times the
    lattice matrix. *)
Definition fracToCartesian (frac : list R) (latticeMatrix : list (list R))
    : list R :=
  [ Js.at1 frac 0 * Js.at2 latticeMatrix 0 0
    + Js.at1 frac 1 * Js.at2 latticeMatrix 1 0
    + Js.at1 frac 2 * Js.at2 latticeMatrix 2 0;
    Js.at1 frac 0 * Js.at2 latticeMatrix 0 1
    + Js.at1 frac 1 * Js.at2 latticeMatrix 1 1
    + Js.at1 frac 2 * Js.at2 latticeMatrix 2 1;
    Js.at1 frac 0 * Js.at2 latticeMatrix 0 2
    + Js.at1 frac 1 * Js.at2 latticeMatrix 1 2
    + Js.at1 frac 2 * Js.at2 latticeMatrix 2 2 ].

(** [src/utils/lattice.ts], [generateSupercellTranslations]. *)

(** The counters [0, 1, 2, ...] for which the loop test [x < bound]
    holds: there are [ceil bound] of them, none when [bound <= 0]. *)
Definition loop_counters (bound : R) : list nat :=
  seq 0 (Z.to_nat (Zceil bound)).

Definition generateSupercellTranslations (size : list R) : list (list R) :=
  fold_left
    (fun translations x =>
       fold_left
         (fun translations y =>
            fold_left
              (fun translations z =>
                 translations ++ [[INR x; INR y; INR z]])
              (loop_counters (Js.at1 size 2)) translations)
         (loop_counters (Js.at1 size 1)) translations)
    (loop_counters (Js.at1 size 0)) [].

(** [src/rendering/atoms.ts]: the display radii, in angstrom, and
    [getAtomRadius], that is [ATOM_RADII[element] || ATOM_RADII['X']]; the
    result is [None] where the source would return [undefined]. *)
Definition ATOM_RADII : gmap string R :=
  list_to_map
    [ ("H", 0.31); ("He", 0.31); ("Li", 1.28); ("Be", 0.96); ("B", 0.84);
      ("C", 0.76); ("N", 0.71); ("O", 0.66); ("F", 0.57); ("Ne", 0.58);
      ("Na", 1.66); ("Mg", 1.41); ("Al", 1.21); ("Si", 1.11); ("P", 1.07);
      ("S", 1.05); ("Cl", 1.02); ("Ar", 1.06); ("K", 2.03); ("Ca", 1.76);
      ("Sc", 1.70); ("Ti", 1.60); ("V", 1.53); ("Cr", 1.39); ("Mn", 1.39);
      ("Fe", 1.32); ("Co", 1.26); ("Ni", 1.24); ("Cu", 1.32); ("Zn", 1.22);
      ("Ga", 1.22); ("Ge", 1.20); ("As", 1.19); ("Se", 1.20); ("Br", 1.20);
      ("Kr", 1.16); ("X", 1.0) ].

Definition getAtomRadius (element : string) : option R :=
  Js.or (ATOM_RADII !! element) (ATOM_RADII !! "X").

(** [src/rendering/polyhedra.ts], [identifyPolyhedronType]: a label read
    off the number of neighbours; the template string prints that number
    in decimal. *)
Definition identifyPolyhedronType (neighbors : list Site) : string :=
  let coordinationNumber := length neighbors in
  match coordinationNumber with
  | 2%nat => "Linear"
  | 3%nat => "Trigonal"
  | 4%nat => "Tetrahedral"
  | 5%nat => "Trigonal bipyramidal"
  | 6%nat => "Octahedral"
  | 8%nat => "Square antiprismatic"
  | _ => pretty coordinationNumber +:+ "-coordinate"
  end.

(** [src/demo.ts], [createSiCrystal]: two Si sites of the diamond
    structure and their copies one cell further along the first axis. *)
Definition createSiCrystal : CrystalStructure :=
  let latticeConstant := 5.43 in
  let lattice :=
    mkLattice [ [latticeConstant; 0; 0];
                [0; latticeConstant; 0];
                [0; 0; latticeConstant] ]
              latticeConstant latticeConstant latticeConstant 90 90 90 in
  let sites :=
    [ mkSite "Si" [0.0; 0.0; 0.0] 1.0 (Some "Si1") None None
             (Some [0.0; 0.0; 0.0]);
      mkSite "Si" [0.25; 0.25; 0.25] 1.0 (Some "Si2") None None
             (Some [0.25 * latticeConstant; 0.25 * latticeConstant;
                    0.25 * latticeConstant]);
      mkSite "Si" [1.0; 0.0; 0.0] 1.0 (Some "Si3") None None
             (Some [latticeConstant; 0.0; 0.0]);
      mkSite "Si" [1.25; 0.25; 0.25] 1.0 (Some "Si4") None None
             (Some [1.25 * latticeConstant; 0.25 * latticeConstant;
                    0.25 * latticeConstant]) ] in
  mkCrystal lattice [true; true; true] sites.

(** ** The lattice functions on IEEE doubles *)

Module Double.

Import PrimFloat FloatOps SpecFloat.
#[local] Set Warnings "-inexact-float".
Local Open Scope float_scope.

(** The double that holds an integer [z] with [|z| < 2^53]. *)
Definition of_Z (z : Z) : float :=
  if (z <? 0)%Z then - of_uint63 (Uint63.of_Z (- z))
  else of_uint63 (Uint63.of_Z z).

(** [Math.floor]: a finite double is [m * 2^e] for an integer mantissa [m]
    with its sign; with [e >= 0] it is an integer already, otherwise its
    floor is the quotient of [m] by [2^(-e)] rounded down.  Zeros,
    infinities and NaN are returned as they are. *)
Definition Math_floor (x : float) : float :=
  match Prim2SF x with
  | S754_finite s m e =>
      if (0 <=? e)%Z then x
      else of_Z (Z.div (if s then Z.neg m else Z.pos m) (2 ^ (- e)))
  | _ => x
  end.

(** [Math.round]: the nearest integer, a tie going up.  The result is
    [+0] where ECMAScript gives [-0]; the two behave alike in the
    subtraction that follows. *)
Definition Math_round (x : float) : float :=
  let r := Math_floor x in
  if 0.5 <=? x - r then r + 1 else r.

(** [Math.PI] *)
Definition Math_PI : float := 3.141592653589793.

(** [v[k]] and [m[i][j]]; arithmetic on a missing component gives NaN. *)
Definition at1 (v : list float) (k : nat) : float := nth k v nan.

Definition at2 (m : list (list float)) (i j : nat) : float :=
  nth j (nth i m []) nan.

Definition wrapFractional (frac : list float) : list float :=
  map (fun f => f - Math_floor f) frac.

Definition minimumImage (frac : list float) : list float :=
  map (fun f => f - Math_round f) frac.

Definition periodicDistance (frac1 frac2 : list float)
    (latticeMatrix : list (list float)) : float :=
  let df :=
    [ at1 frac2 0 - at1 frac1 0;
      at1 frac2 1 - at1 frac1 1;
      at1 frac2 2 - at1 frac1 2 ] in
  let dfWrapped := minimumImage df in
  let dr :=
    [ at1 dfWrapped 0 * at2 latticeMatrix 0 0
      + at1 dfWrapped 1 * at2 latticeMatrix 1 0
      + at1 dfWrapped 2 * at2 latticeMatrix 2 0;
      at1 dfWrapped 0 * at2 latticeMatrix 0 1
      + at1 dfWrapped 1 * at2 latticeMatrix 1 1
      + at1 dfWrapped 2 * at2 latticeMatrix 2 1;
      at1 dfWrapped 0 * at2 latticeMatrix 0 2
      + at1 dfWrapped 1 * at2 latticeMatrix 1 2
      + at1 dfWrapped 2 * at2 latticeMatrix 2 2 ] in
  sqrt (at1 dr 0 * at1 dr 0 + at1 dr 1 * at1 dr 1 + at1 dr 2 * at1 dr 2).

(** [latticeParamsToMatrix].  ECMAScript leaves the values of [Math.cos]
    and [Math.sin] to the implementation, so the two functions are
    arguments here. *)
Definition latticeParamsToMatrix (Math_cos Math_sin : float -> float)
    (a b c alpha beta gamma : float) : list (list float) :=
  let alphaRad := alpha * Math_PI / 180 in
  let betaRad := beta * Math_PI / 180 in
  let gammaRad := gamma * Math_PI / 180 in
  let bx := b * Math_cos gammaRad in
  let by_ := b * Math_sin gammaRad in
  let cx := c * Math_cos betaRad in
  let cy :=
    c * (Math_cos alphaRad - Math_cos betaRad * Math_cos gammaRad)
    / Math_sin gammaRad in
  let cz := sqrt (c * c - cx * cx - cy * cy) in
  [ [a; 0; 0];
    [bx; by_; 0];
    [cx; cy; cz] ].


(** The sheared cell with rows (1,0,0), (1,1,0), (0,0,1). *)
Definition sheared_cell : list (list float) :=
  [ [1; 0; 0]; [1; 1; 0]; [0; 0; 1] ].

(** The multiples of 1/8 in [[0, 1)], and a few integer shifts: sums and
    differences of these are computed without rounding. *)
Definition eighths : list float :=
  [0; 0.125; 0.25; 0.375; 0.5; 0.625; 0.75; 0.875].

Definition shifts : list float := [-3; -2; -1; 0; 1; 2; 3].

(** Periodicity of the distance from [(x, y, 1/2)] to [(y, x, 1/4)] under
    the shift [(k1, k2, k1)], as a test. *)
Definition periodic_at (x y k1 k2 : float) : bool :=
  periodicDistance [x; y; 0.5] [y + k1; x + k2; 0.25 + k1] sheared_cell
  =? periodicDistance [x; y; 0.5] [y; x; 0.25] sheared_cell.

(** The double [90 * Math.PI / 180]. *)
Definition quarter_turn : float := 1.5707963267948966.

(** A cosine and a sine for arguments close to a quarter turn.  The
    number pi / 2 is 1.5707963267948966 + 6.123233995736766e-17 to twice
    the precision of a double; to first order in the distance of [x] from
    it the cosine of [x] is [pi / 2 - x] and the sine is 1. *)
Definition cos_near_quarter_turn (x : float) : float :=
  quarter_turn - x + 6.123233995736766e-17.

Definition sin_near_quarter_turn (x : float) : float := 1.

End Double.

(** ** Element lookups through the prototype chain *)

(** The property names that every plain object inherits from
    [Object.prototype]: a lookup [table[name]] at one of them finds the
    inherited property, not [undefined]. *)
Definition Object_prototype_names : list string :=
  [ "constructor"; "__defineGetter__"; "__defineSetter__"; "hasOwnProperty";
    "__lookupGetter__"; "__lookupSetter__"; "isPrototypeOf";
    "propertyIsEnumerable"; "toString"; "valueOf"; "__proto__";
    "toLocaleString" ].

Module Proto.

(** What a lookup in a table of numbers can give: a number of the table,
    or the member of [Object.prototype] of the given name, which is a
    function or an object. *)
Inductive Value : Type :=
| Number (r : R)
| Inherited (name : string).

(** [table[name]]: the own property first, then the prototype. *)
Definition get (table : gmap string R) (name : string) : option Value :=
  match table !! name with
  | Some r => Some (Number r)
  | None =>
      if decide (name ∈ Object_prototype_names)
      then Some (Inherited name)
      else None
  end.

(** Truthiness: [undefined] and [0] are falsy, functions and objects
    truthy. *)
Definition truthy (v : option Value) : bool :=
  match v with
  | Some (Number r) => if Req_dec_T r 0 then false else true
  | Some (Inherited _) => true
  | None => false
  end.

Definition or (v w : option Value) : option Value :=
  if truthy v then v else w.

(** [COVALENT_RADII[element] || 1.0] *)
Definition getCovalentRadius (element : string) : option Value :=
  or (get COVALENT_RADII element) (Some (Number 1.0)).

(** [ATOM_RADII[element] || ATOM_RADII['X']] *)
Definition getAtomRadius (element : string) : option Value :=
  or (get ATOM_RADII element) (get ATOM_RADII "X").

End Proto.

(** ** Vocabulary of the statements *)


(** What the pair [(i, j)] appends: nothing or one bond. *)
Definition emitted (crystal : CrystalStructure)
    (scaleFactor minCut maxCut : R) (pairOverrides : option (gmap string R))
    (i j : nat) : list Bond :=
  visit_pair crystal scaleFactor minCut maxCut pairOverrides i j [].

(** The inner index range of row [i] in a structure of [n] sites. *)
Definition row (n i : nat) : list nat := seq (i + 1) (n - (i + 1)).

(** Strict lexicographic order on the index pair of a bond. *)
Definition bond_lex_lt (b1 b2 : Bond) : Prop :=
  (atom1 b1 < atom1 b2)%nat \/
  (atom1 b1 = atom1 b2 /\ (atom2 b1 < atom2 b2)%nat).

(** The cutoff rule in the words of the specification: an entry of
    [pairOverrides] under either key is the cutoff as it is; without one
    the scaled sum of the radii is clamped into the limits. *)
Definition pair_cutoff_spec (scaleFactor minCut maxCut : R)
    (pairOverrides : option (gmap string R))
    (element1 element2 : string) : R :=
  match override_at pairOverrides (pairKey element1 element2),
        override_at pairOverrides (pairKey element2 element1) with
  | Some v, _ => v
  | None, Some v => v
  | None, None =>
      Js.Math_max minCut
        (Js.Math_min maxCut
           (scaleFactor
            * (getCovalentRadius element1 + getCovalentRadius element2)))
  end.

(** Strict lexicographic order on translation vectors: first component,
    then second, then third. *)
Definition translation_lex_lt (t1 t2 : list R) : Prop :=
  Js.at1 t1 0 < Js.at1 t2 0 \/
  (Js.at1 t1 0 = Js.at1 t2 0 /\
   (Js.at1 t1 1 < Js.at1 t2 1 \/
    (Js.at1 t1 1 = Js.at1 t2 1 /\ Js.at1 t1 2 < Js.at1 t2 2))).

(** The last character of a string. *)
Fixpoint last_char (s : string) : option Ascii.ascii :=
  match s with
  | EmptyString => None
  | String a EmptyString => Some a
  | String _ s' => last_char s'
  end.

(** ** Worked structures *)

(** The sheared cell with rows (1,0,0), (1,1,0), (0,0,1). *)
Definition sheared_cell : list (list R) :=
  [ [1; 0; 0]; [1; 1; 0]; [0; 0; 1] ].

(** A cubic cell of edge [l]. *)
Definition cubic (l : R) : Lattice :=
  mkLattice [ [l; 0; 0]; [0; l; 0]; [0; 0; l] ] l l l 90 90 90.

(** A fully occupied site with only the mandatory fields. *)
Definition site_at (e : string) (x y z : R) : Site :=
  mkSite e [x; y; z] 1 None None None None.

(** Na at the origin and Cl halfway along the first axis of a 5 angstrom
    cube: 2.5 angstrom apart. *)
Definition nacl_cell : CrystalStructure :=
  mkCrystal (cubic 5) [true; true; true]
            [site_at "Na" 0 0 0; site_at "Cl" (1/2) 0 0].

(** The same lattice and sites, flagged as not periodic along any axis. *)
Definition nacl_slab : CrystalStructure :=
  mkCrystal (cubic 5) [false; false; false]
            [site_at "Na" 0 0 0; site_at "Cl" (1/2) 0 0].

(** A single Na site in the same cube. *)
Definition lone_site : CrystalStructure :=
  mkCrystal (cubic 5) [true; true; true] [site_at "Na" 0 0 0].

(** The four Si sites of [createSiCrystal] with no label and no Cartesian
    coordinates, half occupied, in a lattice record whose scalar parameters
    are all zero and whose flags are all off. *)
Definition si_bare : CrystalStructure :=
  mkCrystal
    (mkLattice [ [5.43; 0; 0]; [0; 5.43; 0]; [0; 0; 5.43] ] 0 0 0 0 0 0)
    [false; false; false]
    [ mkSite "Si" [0.0; 0.0; 0.0] 0.5 None None None None;
      mkSite "Si" [0.25; 0.25; 0.25] 0.5 None None None None;
      mkSite "Si" [1.0; 0.0; 0.0] 0.5 None None None None;
      mkSite "Si" [1.25; 0.25; 0.25] 0.5 None None None None ].

(** Two H sites 0.5 angstrom apart in a 4 angstrom cube. *)
Definition h2_cell : CrystalStructure :=
  mkCrystal (cubic 4) [true; true; true]
            [site_at "H" 0 0 0; site_at "H" (1/8) 0 0].

(** The override object with the single entry ["Na-Cl": 2.5]. *)
Definition nacl_override : option (gmap string R) :=
  Some {[ "Na-Cl" := 2.5 ]}.

(** The override object with the single entry ["Na-Cl": 0]. *)
Definition nacl_zero_override : option (gmap string R) :=
  Some {[ "Na-Cl" := 0 ]}.

(** * Properties *)

(** ** Rounding *)

Section Rounding.

Lemma Math_floor_bound x :
  Js.Math_floor x <= x < Js.Math_floor x + 1.
Proof. unfold Js.Math_floor. apply Zfloor_bound. Qed.

Lemma Math_round_bound x :
  Js.Math_round x - 1/2 <= x < Js.Math_round x + 1/2.
Proof.
  unfold Js.Math_round.
  pose proof (Zfloor_bound (x + 1/2)) as [Hlo Hhi]. lra.
Qed.

(** Rounding commutes with an integer shift. *)
Lemma Math_round_shift x (k : Z) :
  Js.Math_round (x + IZR k) = Js.Math_round x + IZR k.
Proof.
  unfold Js.Math_round.
  replace (x + IZR k + 1/2) with (x + 1/2 + IZR k) by ring.
  rewrite Zfloor_addz. apply plus_IZR.
Qed.



End Rounding.

(** ** Periodic geometry *)

(** On a 3-vector and a matrix with three rows of three entries, the
    distance is the norm of the wrapped difference taken through the
    lattice. *)
Lemma periodicDistance_unfold x0 x1 x2 y0 y1 y2 L :
  periodicDistance [x0; x1; x2] [y0; y1; y2] L =
  let w0 := (y0 - x0) - Js.Math_round (y0 - x0) in
  let w1 := (y1 - x1) - Js.Math_round (y1 - x1) in
  let w2 := (y2 - x2) - Js.Math_round (y2 - x2) in
  let d0 := w0 * Js.at2 L 0 0 + w1 * Js.at2 L 1 0 + w2 * Js.at2 L 2 0 in
  let d1 := w0 * Js.at2 L 0 1 + w1 * Js.at2 L 1 1 + w2 * Js.at2 L 2 1 in
  let d2 := w0 * Js.at2 L 0 2 + w1 * Js.at2 L 1 2 + w2 * Js.at2 L 2 2 in
  sqrt (d0 * d0 + d1 * d1 + d2 * d2).
Proof. reflexivity. Qed.

(** When the subtraction [f - Math.floor(f)] does not round, each
    component of [wrapFractional] lies in [[0, 1)].  In double arithmetic
    the subtraction rounds, and the upper end is reached: see
    [wrapFractional_reaches_one]. *)
Lemma wrapFractional_range_exact (v : list R) :
  Forall (fun f => 0 <= f < 1) (wrapFractional v).
Proof.
  unfold wrapFractional.
  induction v as [|f v IH]; simpl; constructor; [|exact IH].
  pose proof (Math_floor_bound f). lra.
Qed.

(** When neither the sum [y + k] nor the difference from [x] rounds,
    shifting the second point by an integer vector [k] leaves the periodic
    distance unchanged.  In double arithmetic both can round: see
    [periodicDistance_not_periodic]. *)
Lemma periodicDistance_periodic_exact
    (x0 x1 x2 y0 y1 y2 : R) (k0 k1 k2 : Z) (L : list (list R)) :
  periodicDistance [x0; x1; x2] [y0 + IZR k0; y1 + IZR k1; y2 + IZR k2] L =
  periodicDistance [x0; x1; x2] [y0; y1; y2] L.
Proof.
  rewrite !periodicDistance_unfold. cbv zeta.
  replace (y0 + IZR k0 - x0) with (y0 - x0 + IZR k0) by ring.
  replace (y1 + IZR k1 - x1) with (y1 - x1 + IZR k1) by ring.
  replace (y2 + IZR k2 - x2) with (y2 - x2 + IZR k2) by ring.
  rewrite !Math_round_shift. f_equal. ring.
Qed.






(** Rounding at the constants of the examples. *)
Lemma Math_round_eq x (n : Z) :
  IZR n - 1/2 <= x < IZR n + 1/2 -> Js.Math_round x = IZR n.
Proof.
  intros H. unfold Js.Math_round. f_equal. apply Zfloor_eq. lra.
Qed.



(** ** Lattice parameters, with exact cosines and sines *)

Lemma right_angle : 90 * PI / 180 = PI / 2.
Proof. field. Qed.

(** With an exact cosine and sine, three right angles give sines 1 and
    cosines 0, and the last entry is the square root of [c * c]: the
    matrix is diagonal.  This is what the unit test of the repository
    expects; [latticeParamsToMatrix_right_angles_not_diagonal] is what
    the code returns. *)
Lemma right_angles_matrix (a b c : R) :
  latticeParamsToMatrix a b c 90 90 90 =
  [ [a; 0; 0]; [0; b; 0]; [0; 0; Rabs c] ].
Proof.
  unfold latticeParamsToMatrix. cbv zeta.
  rewrite right_angle, cos_PI2, sin_PI2.
  replace (c * c - c * 0 * (c * 0)
           - c * (0 - 0 * 0) / 1 * (c * (0 - 0 * 0) / 1))
    with (Rsqr c) by (unfold Rsqr; field).
  rewrite sqrt_Rsqr_abs.
  repeat f_equal; field.
Qed.

(** For a length [c] that is not negative this is [diag(a, b, c)]. *)
Corollary right_angles_matrix_nonneg (a b c : R) :
  0 <= c ->
  latticeParamsToMatrix a b c 90 90 90 =
  [ [a; 0; 0]; [0; b; 0]; [0; 0; c] ].
Proof.
  intros Hc. rewrite right_angles_matrix.
  rewrite Rabs_pos_eq by exact Hc. reflexivity.
Qed.

(** The cubic cell of the unit test, with an exact cosine and sine. *)
Example cubic_5 :
  latticeParamsToMatrix 5 5 5 90 90 90 = [ [5; 0; 0]; [0; 5; 0]; [0; 0; 5] ].
Proof. apply right_angles_matrix_nonneg. lra. Qed.

(** A negative [c] comes back positive: the last entry is a square
    root. *)
Lemma latticeParamsToMatrix_negative_c :
  latticeParamsToMatrix 1 1 (-1) 90 90 90 <>
  [ [1; 0; 0]; [0; 1; 0]; [0; 0; -1] ].
Proof.
  rewrite right_angles_matrix.
  rewrite Rabs_left by lra.
  intros Heq. injection Heq as Heq. lra.
Qed.

(** ** What rounding changes *)

Section Rounded.

Import PrimFloat.
#[local] Set Warnings "-inexact-float".
Local Open Scope float_scope.

(** [Math.floor] and [Math.round] on doubles, at a tie, at a negative
    number, next to zero and at the largest double with a fractional
    part. *)
Example Math_floor_doubles :
  map Double.Math_floor
      [-0.5; 0.5; 3.7; -3.7; 1e300; -1e-17; 4503599627370495.5]
  = [-1; 0; 3; -4; 1e300; -1; 4503599627370495].
Proof. vm_compute. reflexivity. Qed.

Example Math_round_doubles :
  map Double.Math_round
      [0.5; 2.5; -2.5; -1.5; 0.49999999999999994; 1.15;
       4503599627370495.5]
  = [1; 3; -2; -1; 0; 1; 4503599627370496].
Proof. vm_compute. reflexivity. Qed.

(** C7. The input -1e-17 is a double and lies below zero; its floor is
    -1, and the difference -1e-17 - (-1) rounds to 1: [wrapFractional]
    returns a component that is not in [[0, 1)]. *)
Theorem wrapFractional_reaches_one :
  Double.wrapFractional [-1e-17] = [1].
Proof. vm_compute. reflexivity. Qed.

(** The minimum image of the same input stays in range. *)
Example minimumImage_next_to_zero :
  Double.minimumImage [-1e-17] = [-1e-17].
Proof. vm_compute. reflexivity. Qed.


(** Where the sums and differences are computed without rounding, as on
    the multiples of 1/8 with small integer shifts, the distance is
    periodic in doubles as well. *)
Example periodicDistance_periodic_on_eighths :
  forallb (fun x =>
    forallb (fun y =>
      forallb (fun k1 =>
        forallb (fun k2 => Double.periodic_at x y k1 k2) Double.shifts)
        Double.shifts)
      Double.eighths)
    Double.eighths
  = true.
Proof. vm_compute. reflexivity. Qed.

(** The matrix for three right angles, whatever [Math.cos] and [Math.sin]
    return: the angle in radians is the double 1.5707963267948966, and
    every entry off the diagonal is a multiple of the cosine there. *)
Lemma latticeParamsToMatrix_quarter_turns
    (Math_cos Math_sin : float -> float) (a b c : float) :
  Double.latticeParamsToMatrix Math_cos Math_sin a b c 90 90 90 =
  let k := Math_cos Double.quarter_turn in
  let s := Math_sin Double.quarter_turn in
  [ [a; 0; 0];
    [b * k; b * s; 0];
    [c * k; c * (k - k * k) / s;
     sqrt (c * c - c * k * (c * k)
           - c * (k - k * k) / s * (c * (k - k * k) / s))] ].
Proof.
  unfold Double.latticeParamsToMatrix. cbv zeta.
  assert (E : 90 * Double.Math_PI / 180 = Double.quarter_turn)
    by (vm_compute; reflexivity).
  rewrite E. reflexivity.
Qed.

(** C8. [Math.cos] returns 6.123233995736766e-17 at
    [90 * Math.PI / 180], and [Math.sin] returns 1; with these values
    [latticeParamsToMatrix(5, 5, 5, 90, 90, 90)] has three entries
    3.061616997868383e-16 below the diagonal, where the unit test of the
    repository expects zeros. *)
Theorem latticeParamsToMatrix_right_angles_not_diagonal
    (Math_cos Math_sin : float -> float) :
  Math_cos Double.quarter_turn = 6.123233995736766e-17 ->
  Math_sin Double.quarter_turn = 1 ->
  Double.latticeParamsToMatrix Math_cos Math_sin 5 5 5 90 90 90 =
  [ [5; 0; 0];
    [3.061616997868383e-16; 5; 0];
    [3.061616997868383e-16; 3.061616997868383e-16; 5] ].
Proof.
  intros Hc Hs. rewrite latticeParamsToMatrix_quarter_turns. cbv zeta.
  rewrite Hc, Hs. vm_compute. reflexivity.
Qed.

Lemma latticeParamsToMatrix_right_angles_not_diagonal_witness :
  Double.cos_near_quarter_turn Double.quarter_turn = 6.123233995736766e-17 /\
  Double.sin_near_quarter_turn Double.quarter_turn = 1 /\
  Double.latticeParamsToMatrix
    Double.cos_near_quarter_turn Double.sin_near_quarter_turn
    5 5 5 90 90 90 =
  [ [5; 0; 0];
    [3.061616997868383e-16; 5; 0];
    [3.061616997868383e-16; 3.061616997868383e-16; 5] ].
Proof.
  assert (Hc : Double.cos_near_quarter_turn Double.quarter_turn
               = 6.123233995736766e-17) by (vm_compute; reflexivity).
  assert (Hs : Double.sin_near_quarter_turn Double.quarter_turn = 1)
    by reflexivity.
  split; [exact Hc|]. split; [exact Hs|].
  exact (latticeParamsToMatrix_right_angles_not_diagonal
           Double.cos_near_quarter_turn Double.sin_near_quarter_turn Hc Hs).
Defined.

End Rounded.

(** ** The two loops as a list comprehension *)

Lemma fold_left_push {A B} (f : A -> list B) (l : list A) (acc : list B) :
  fold_left (fun acc x => acc ++ f x) l acc = acc ++ flat_map f l.
Proof.
  revert acc. induction l as [|x l IH]; intros acc; simpl.
  - symmetry. apply app_nil_r.
  - rewrite IH. symmetry. apply app_assoc.
Qed.

Lemma fold_left_ext {A B} (f g : B -> A -> B) (l : list A) (acc : B) :
  (forall b x, f b x = g b x) -> fold_left f l acc = fold_left g l acc.
Proof.
  intros Hfg. revert acc.
  induction l as [|x l IH]; intros acc; simpl; [reflexivity|].
  rewrite Hfg. apply IH.
Qed.

Section Loops.

Variable crystal : CrystalStructure.
Variables scaleFactor minCut maxCut : R.
Variable pairOverrides : option (gmap string R).

Local Abbreviation visit := (visit_pair crystal scaleFactor minCut maxCut pairOverrides).
Local Abbreviation emit := (emitted crystal scaleFactor minCut maxCut pairOverrides).
Local Abbreviation cutoff_of :=
  (pair_cutoff scaleFactor minCut maxCut pairOverrides).

Lemma visit_pair_push i j bonds : visit i j bonds = bonds ++ emit i j.
Proof.
  unfold emitted, visit_pair.
  destruct (sites crystal !! i) as [site1|];
    [destruct (sites crystal !! j) as [site2|]|];
    try (symmetry; apply app_nil_r).
  cbv zeta. destruct (Js.leb _ _); [reflexivity|].
  symmetry. apply app_nil_r.
Qed.

Lemma inner_loop_push i bonds :
  inner_loop crystal scaleFactor minCut maxCut pairOverrides i bonds =
  bonds ++ flat_map (emit i) (row (length (sites crystal)) i).
Proof.
  unfold inner_loop, row.
  rewrite <- fold_left_push. apply fold_left_ext.
  intros b j. apply visit_pair_push.
Qed.

(** The bonds are the concatenation, row after row, of what each pair
    emits. *)
Lemma calculateBonds_rows :
  calculateBonds crystal scaleFactor minCut maxCut pairOverrides =
  flat_map (fun i => flat_map (emit i) (row (length (sites crystal)) i))
           (seq 0 (length (sites crystal))).
Proof.
  unfold calculateBonds.
  rewrite <- (app_nil_l (flat_map _ _)), <- fold_left_push.
  apply fold_left_ext. intros b i. apply inner_loop_push.
Qed.

(** A pair emits a bond exactly when both sites exist and the distance
    is within the cutoff; the bond records the pair, the distance and
    the cutoff. *)
Lemma emitted_spec i j b :
  In b (emit i j) <->
  exists site1 site2,
    sites crystal !! i = Some site1 /\
    sites crystal !! j = Some site2 /\
    periodicDistance (frac site1) (frac site2) (matrix (lattice crystal))
      <= cutoff_of (element site1) (element site2) /\
    b = mkBond i j
          (periodicDistance (frac site1) (frac site2)
                            (matrix (lattice crystal)))
          (cutoff_of (element site1) (element site2)).
Proof.
  unfold emitted, visit_pair, Js.leb.
  destruct (sites crystal !! i) as [site1|] eqn:H1;
    [destruct (sites crystal !! j) as [site2|] eqn:H2|].
  - cbv zeta. destruct (Rle_dec _ _) as [Hle|Hnle]; simpl; split.
    + intros [<-|[]]. exists site1, site2. auto.
    + intros (s1 & s2 & E1 & E2 & _ & ->).
      injection E1 as <-. injection E2 as <-. left. reflexivity.
    + intros [].
    + intros (s1 & s2 & E1 & E2 & Hle & _).
      injection E1 as <-. injection E2 as <-. contradiction.
  - simpl. split; [intros []|].
    intros (s1 & s2 & _ & E2 & _). discriminate.
  - simpl. split; [intros []|].
    intros (s1 & s2 & E1 & _). discriminate.
Qed.

Lemma emitted_length i j : (length (emit i j) <= 1)%nat.
Proof.
  unfold emitted, visit_pair.
  destruct (sites crystal !! i); [destruct (sites crystal !! j)|];
    simpl; try lia.
  destruct (Js.leb _ _); simpl; lia.
Qed.

Lemma in_calculateBonds b :
  In b (calculateBonds crystal scaleFactor minCut maxCut pairOverrides) <->
  exists i j, (i < j < length (sites crystal))%nat /\ In b (emit i j).
Proof.
  rewrite calculateBonds_rows, in_flat_map. split.
  - intros (i & Hi & Hb). apply in_flat_map in Hb as (j & Hj & Hb).
    unfold row in Hj. apply in_seq in Hi, Hj.
    exists i, j. split; [lia|exact Hb].
  - intros (i & j & Hij & Hb). exists i. split.
    + apply in_seq. lia.
    + apply in_flat_map. exists j. split; [|exact Hb].
      unfold row. apply in_seq. lia.
Qed.

End Loops.

(** ** Order of the emitted bonds *)

Lemma StronglySorted_seq (start len : nat) :
  StronglySorted Nat.lt (seq start len).
Proof.
  revert start. induction len as [|len IH]; intros start; simpl.
  - constructor.
  - constructor; [apply IH|].
    apply Forall_forall. intros y Hy%list_elem_of_In.
    apply in_seq in Hy. unfold Nat.lt. lia.
Qed.

(** Concatenating sorted blocks along a sorted list of keys gives a sorted
    list, when the blocks of two ordered keys are ordered. *)
Lemma StronglySorted_flat_map {A B} (RA : A -> A -> Prop)
    (RB : B -> B -> Prop) (f : A -> list B) (l : list A) :
  StronglySorted RA l ->
  (forall x, In x l -> StronglySorted RB (f x)) ->
  (forall x y b1 b2, In x l -> In y l -> RA x y ->
     In b1 (f x) -> In b2 (f y) -> RB b1 b2) ->
  StronglySorted RB (flat_map f l).
Proof.
  induction 1 as [|x l Hl IH Hx]; intros Hblock Hcross; simpl.
  - constructor.
  - apply StronglySorted_app. split; [|split].
    + intros b1 b2 Hb1%list_elem_of_In Hb2%list_elem_of_In.
      apply in_flat_map in Hb2 as (y & Hy & Hb2).
      apply (Hcross x y); simpl; auto.
      rewrite Forall_forall in Hx. apply Hx, list_elem_of_In, Hy.
    + apply Hblock. left. reflexivity.
    + apply IH.
      * intros y Hy. apply Hblock. right. exact Hy.
      * intros y z b1 b2 Hy Hz. apply Hcross; right; assumption.
Qed.

Lemma StronglySorted_short {B} (RB : B -> B -> Prop) (l : list B) :
  (length l <= 1)%nat -> StronglySorted RB l.
Proof.
  destruct l as [|b [|b' l]]; simpl; intros Hlen.
  - constructor.
  - constructor; constructor.
  - lia.
Qed.

Section Order.

Variable crystal : CrystalStructure.
Variables scaleFactor minCut maxCut : R.
Variable pairOverrides : option (gmap string R).

Local Abbreviation emit :=
  (emitted crystal scaleFactor minCut maxCut pairOverrides).

Lemma emitted_indices i j b :
  In b (emit i j) -> atom1 b = i /\ atom2 b = j.
Proof.
  intros Hb. apply emitted_spec in Hb as (s1 & s2 & _ & _ & _ & ->).
  split; reflexivity.
Qed.

Lemma row_sorted i :
  StronglySorted bond_lex_lt
    (flat_map (emit i) (row (length (sites crystal)) i)).
Proof.
  apply (StronglySorted_flat_map Nat.lt).
  - apply StronglySorted_seq.
  - intros j _. apply StronglySorted_short, emitted_length.
  - intros j1 j2 b1 b2 _ _ Hj Hb1 Hb2.
    apply emitted_indices in Hb1 as [A1 A2], Hb2 as [B1 B2].
    right. unfold Nat.lt in Hj. split; lia.
Qed.

Lemma bonds_sorted :
  StronglySorted bond_lex_lt
    (calculateBonds crystal scaleFactor minCut maxCut pairOverrides).
Proof.
  rewrite calculateBonds_rows.
  apply (StronglySorted_flat_map Nat.lt).
  - apply StronglySorted_seq.
  - intros i _. apply row_sorted.
  - intros i1 i2 b1 b2 _ _ Hi Hb1 Hb2.
    apply in_flat_map in Hb1 as (j1 & _ & Hb1).
    apply in_flat_map in Hb2 as (j2 & _ & Hb2).
    apply emitted_indices in Hb1 as [A1 A2], Hb2 as [B1 B2].
    left. unfold Nat.lt in Hi. lia.
Qed.

Lemma bonds_increasing_pair :
  Forall (fun b => (atom1 b < atom2 b)%nat)
    (calculateBonds crystal scaleFactor minCut maxCut pairOverrides).
Proof.
  apply Forall_forall. intros b Hb%list_elem_of_In.
  apply in_calculateBonds in Hb as (i & j & Hij & Hb).
  apply emitted_indices in Hb as [-> ->]. lia.
Qed.

End Order.

(** C9. Every bond has [atom1 < atom2], and the returned sequence is in
    strictly ascending lexicographic order of [(atom1, atom2)]. *)
Theorem calculateBonds_ordered (crystal : CrystalStructure)
    (scaleFactor minCut maxCut : R)
    (pairOverrides : option (gmap string R)) :
  Forall (fun b => (atom1 b < atom2 b)%nat)
    (calculateBonds crystal scaleFactor minCut maxCut pairOverrides) /\
  StronglySorted bond_lex_lt
    (calculateBonds crystal scaleFactor minCut maxCut pairOverrides).
Proof.
  split; [apply bonds_increasing_pair | apply bonds_sorted].
Qed.

(** ** Radii and cutoffs *)

Lemma or_num_pos (v : option R) (d : R) :
  (forall r, v = Some r -> 0 < r) -> 0 < d -> 0 < Js.or_num v d.
Proof.
  intros Hv Hd. unfold Js.or_num, Js.or.
  destruct (Js.truthy v); [|exact Hd].
  destruct v as [r|]; [apply Hv; reflexivity | exact Hd].
Qed.

Lemma COVALENT_RADII_pos (e : string) (r : R) :
  COVALENT_RADII !! e = Some r -> 0 < r.
Proof.
  unfold COVALENT_RADII. intros Hr%elem_of_list_to_map_2.
  repeat (apply elem_of_cons in Hr as [Hr|Hr];
          [injection Hr as _ ->; lra|]).
  inversion Hr.
Qed.

(** The radius that the bonding loop uses is positive for every symbol,
    known or not. *)
Lemma getCovalentRadius_pos (e : string) : 0 < getCovalentRadius e.
Proof.
  unfold getCovalentRadius. apply or_num_pos; [|lra].
  apply COVALENT_RADII_pos.
Qed.

Lemma clamp_mono (lo hi x y : R) :
  x <= y ->
  Js.Math_max lo (Js.Math_min hi x) <= Js.Math_max lo (Js.Math_min hi y).
Proof.
  intros Hxy. unfold Js.Math_max, Js.Math_min.
  apply Rmax_case_strong; apply Rmax_case_strong;
    apply Rmin_case_strong; apply Rmin_case_strong; intros; lra.
Qed.

Lemma clamp_inverted (lo hi x : R) :
  hi < lo -> Js.Math_max lo (Js.Math_min hi x) = lo.
Proof.
  intros Hinv. unfold Js.Math_max, Js.Math_min.
  apply Rmax_case_strong; apply Rmin_case_strong; intros; lra.
Qed.

Lemma clamp_upper (lo hi x : R) :
  x <= 0 -> Js.Math_max lo (Js.Math_min hi x) <= Rmax lo 0.
Proof.
  intros Hx. unfold Js.Math_max, Js.Math_min.
  apply Rmax_case_strong; apply Rmax_case_strong;
    apply Rmin_case_strong; intros; lra.
Qed.

(** Without an override in force the cutoff is the clamped scaled sum of
    the two radii. *)
Lemma pair_cutoff_radii scaleFactor minCut maxCut pairOverrides e1 e2 :
  override_guard pairOverrides e1 e2 = false ->
  pair_cutoff scaleFactor minCut maxCut pairOverrides e1 e2 =
  Js.Math_max minCut
    (Js.Math_min maxCut
       (scaleFactor * (getCovalentRadius e1 + getCovalentRadius e2))).
Proof. intros Hg. unfold pair_cutoff. rewrite Hg. reflexivity. Qed.

(** With an override in force the scale factor and the limits are not
    read. *)
Lemma pair_cutoff_override s1 s2 mn1 mn2 mx1 mx2 pairOverrides e1 e2 :
  override_guard pairOverrides e1 e2 = true ->
  pair_cutoff s1 mn1 mx1 pairOverrides e1 e2 =
  pair_cutoff s2 mn2 mx2 pairOverrides e1 e2.
Proof.
  intros Hg. unfold pair_cutoff. rewrite Hg. cbv zeta.
  unfold override_guard in Hg. destruct pairOverrides as [po|]; [|discriminate].
  unfold override_at, Js.or_num, Js.or at 1 3. rewrite Hg.
  destruct (Js.or _ _); [reflexivity | discriminate].
Qed.

Lemma pair_cutoff_mono s1 s2 minCut maxCut pairOverrides e1 e2 :
  s1 <= s2 ->
  pair_cutoff s1 minCut maxCut pairOverrides e1 e2 <=
  pair_cutoff s2 minCut maxCut pairOverrides e1 e2.
Proof.
  intros Hs.
  destruct (override_guard pairOverrides e1 e2) eqn:Hg.
  - rewrite (pair_cutoff_override s1 s2 minCut minCut maxCut maxCut) by exact Hg.
    lra.
  - rewrite !pair_cutoff_radii by exact Hg.
    apply clamp_mono.
    pose proof (getCovalentRadius_pos e1). pose proof (getCovalentRadius_pos e2).
    nra.
Qed.



(** ** Number of bonds and the scale factor *)

Lemma flat_map_length_le {A B} (f g : A -> list B) (l : list A) :
  (forall x, In x l -> (length (f x) <= length (g x))%nat) ->
  (length (flat_map f l) <= length (flat_map g l))%nat.
Proof.
  induction l as [|x l IH]; intros Hfg; simpl; [lia|].
  rewrite !length_app.
  pose proof (Hfg x (or_introl eq_refl)).
  assert ((length (flat_map f l) <= length (flat_map g l))%nat).
  { apply IH. intros y Hy. apply Hfg. right. exact Hy. }
  lia.
Qed.

(** A pair that emits a bond under the smaller scale factor emits one
    under the larger. *)
Lemma emitted_length_mono crystal s1 s2 minCut maxCut pairOverrides i j :
  s1 <= s2 ->
  (length (emitted crystal s1 minCut maxCut pairOverrides i j) <=
   length (emitted crystal s2 minCut maxCut pairOverrides i j))%nat.
Proof.
  intros Hs. unfold emitted, visit_pair, Js.leb.
  destruct (sites crystal !! i) as [site1|]; [|simpl; lia].
  destruct (sites crystal !! j) as [site2|]; [|simpl; lia].
  cbv zeta.
  pose proof (pair_cutoff_mono s1 s2 minCut maxCut pairOverrides
                (element site1) (element site2) Hs) as Hc.
  destruct (Rle_dec _ (pair_cutoff s1 _ _ _ _ _)) as [H1|H1];
    destruct (Rle_dec _ (pair_cutoff s2 _ _ _ _ _)) as [H2|H2];
    simpl; try lia.
  exfalso. apply H2. lra.
Qed.

(** C5. With the structure, the limits and the overrides fixed, a larger
    scale factor never gives fewer bonds. *)
Theorem calculateBonds_count_mono (crystal : CrystalStructure)
    (s1 s2 minCut maxCut : R) (pairOverrides : option (gmap string R)) :
  s1 <= s2 ->
  (length (calculateBonds crystal s1 minCut maxCut pairOverrides) <=
   length (calculateBonds crystal s2 minCut maxCut pairOverrides))%nat.
Proof.
  intros Hs. rewrite !calculateBonds_rows.
  apply flat_map_length_le. intros i _.
  apply flat_map_length_le. intros j _.
  apply emitted_length_mono, Hs.
Qed.

(** ** Periodic-boundary flags *)

(** C6. Two structures with the same lattice and the same sites, whatever
    their [pbc] flags, get the same bonds under every configuration. *)
Theorem calculateBonds_ignores_pbc (c1 c2 : CrystalStructure)
    (scaleFactor minCut maxCut : R)
    (pairOverrides : option (gmap string R)) :
  lattice c1 = lattice c2 ->
  sites c1 = sites c2 ->
  calculateBonds c1 scaleFactor minCut maxCut pairOverrides =
  calculateBonds c2 scaleFactor minCut maxCut pairOverrides.
Proof.
  intros Hl Hs.
  unfold calculateBonds, inner_loop, visit_pair.
  rewrite Hl, Hs. reflexivity.
Qed.

(** ** Evaluation on the worked structures *)

Lemma truthy_nonzero (r : R) : r <> 0 -> Js.truthy (Some r) = true.
Proof. intros Hr. simpl. destruct (Req_dec_T r 0); [contradiction|reflexivity]. Qed.

Lemma truthy_zero : Js.truthy (Some 0) = false.
Proof. simpl. destruct (Req_dec_T 0 0); [reflexivity|contradiction]. Qed.

Lemma or_num_nonzero (r d : R) : r <> 0 -> Js.or_num (Some r) d = r.
Proof.
  intros Hr. unfold Js.or_num, Js.or. rewrite truthy_nonzero by exact Hr.
  reflexivity.
Qed.

Lemma radius_H : getCovalentRadius "H" = 0.32.
Proof.
  unfold getCovalentRadius.
  replace (COVALENT_RADII !! "H") with (Some 0.32) by reflexivity.
  apply or_num_nonzero. lra.
Qed.

Lemma radius_Na : getCovalentRadius "Na" = 1.55.
Proof.
  unfold getCovalentRadius.
  replace (COVALENT_RADII !! "Na") with (Some 1.55) by reflexivity.
  apply or_num_nonzero. lra.
Qed.

Lemma radius_Cl : getCovalentRadius "Cl" = 0.99.
Proof.
  unfold getCovalentRadius.
  replace (COVALENT_RADII !! "Cl") with (Some 0.99) by reflexivity.
  apply or_num_nonzero. lra.
Qed.

Lemma clamp_inside (lo hi x : R) :
  lo <= x <= hi -> Js.Math_max lo (Js.Math_min hi x) = x.
Proof.
  intros Hx. unfold Js.Math_max, Js.Math_min.
  apply Rmax_case_strong; apply Rmin_case_strong; intros; lra.
Qed.

Lemma clamp_below (lo hi x : R) :
  x <= lo <= hi -> Js.Math_max lo (Js.Math_min hi x) = lo.
Proof.
  intros Hx. unfold Js.Math_max, Js.Math_min.
  apply Rmax_case_strong; apply Rmin_case_strong; intros; lra.
Qed.

(** Two points on the first axis of a cubic cell. *)
Lemma periodicDistance_cubic_axis (l x y w : R) :
  (y - x) - Js.Math_round (y - x) = w ->
  periodicDistance [x; 0; 0] [y; 0; 0] (matrix (cubic l)) = Rabs (w * l).
Proof.
  intros Hw. rewrite periodicDistance_unfold. cbv zeta.
  unfold cubic, matrix, Js.at2. simpl nth. rewrite Hw.
  rewrite (Math_round_eq (0 - 0) 0) by lra.
  rewrite <- sqrt_Rsqr_abs. f_equal. unfold Rsqr. ring.
Qed.

Lemma nacl_distance :
  periodicDistance [0; 0; 0] [1/2; 0; 0] (matrix (cubic 5)) = 2.5.
Proof.
  rewrite (periodicDistance_cubic_axis 5 0 (1/2) (-1/2)).
  - rewrite Rabs_left; lra.
  - rewrite (Math_round_eq (1/2 - 0) 1); lra.
Qed.

Lemma h2_distance :
  periodicDistance [0; 0; 0] [1/8; 0; 0] (matrix (cubic 4)) = 0.5.
Proof.
  rewrite (periodicDistance_cubic_axis 4 0 (1/8) (1/8)).
  - rewrite Rabs_right; lra.
  - rewrite (Math_round_eq (1/8 - 0) 0); lra.
Qed.

(** A structure of two sites has the single pair (0, 1). *)
Lemma calculateBonds_two_sites crystal s minCut maxCut pairOverrides
    site1 site2 :
  sites crystal = [site1; site2] ->
  calculateBonds crystal s minCut maxCut pairOverrides =
  let cutoff :=
    pair_cutoff s minCut maxCut pairOverrides
                (element site1) (element site2) in
  let distance :=
    periodicDistance (frac site1) (frac site2) (matrix (lattice crystal)) in
  if Js.leb distance cutoff then [mkBond 0 1 distance cutoff] else [].
Proof.
  intros Hs. unfold calculateBonds, inner_loop, visit_pair.
  rewrite Hs. reflexivity.
Qed.

Lemma leb_true (x y : R) : x <= y -> Js.leb x y = true.
Proof. intros H. unfold Js.leb. destruct (Rle_dec x y); [reflexivity|contradiction]. Qed.

Lemma leb_false (x y : R) : y < x -> Js.leb x y = false.
Proof. intros H. unfold Js.leb. destruct (Rle_dec x y); [lra|reflexivity]. Qed.

(** ** Pair overrides *)

(** A non-zero entry under the first key is the cutoff. *)
Lemma pair_cutoff_first_key s minCut maxCut (po : gmap string R) e1 e2 v :
  po !! pairKey e1 e2 = Some v -> v <> 0 ->
  pair_cutoff s minCut maxCut (Some po) e1 e2 = v.
Proof.
  intros Hk Hv. unfold pair_cutoff, override_guard, override_at. cbv zeta.
  rewrite Hk. unfold Js.or. rewrite !(truthy_nonzero v Hv).
  apply or_num_nonzero, Hv.
Qed.

(** Otherwise a non-zero entry under the second key is the cutoff. *)
Lemma pair_cutoff_second_key s minCut maxCut (po : gmap string R) e1 e2 v :
  Js.truthy (po !! pairKey e1 e2) = false ->
  po !! pairKey e2 e1 = Some v -> v <> 0 ->
  pair_cutoff s minCut maxCut (Some po) e1 e2 = v.
Proof.
  intros Hk1 Hk2 Hv. unfold pair_cutoff, override_guard, override_at.
  cbv zeta. unfold Js.or. rewrite Hk1, Hk2.
  rewrite !(truthy_nonzero v Hv). apply or_num_nonzero, Hv.
Qed.

(** A pair without any entry under its two keys has no override in
    force. *)
Lemma override_guard_no_entry (po : gmap string R) e1 e2 :
  po !! pairKey e1 e2 = None ->
  po !! pairKey e2 e1 = None ->
  override_guard (Some po) e1 e2 = false.
Proof.
  intros Hk1 Hk2. unfold override_guard, Js.or. rewrite Hk1, Hk2. reflexivity.
Qed.

(** An entry that is zero does not pass the guard. *)
Lemma zero_entry_guard (po : gmap string R) e1 e2 :
  po !! pairKey e1 e2 = Some 0 ->
  po !! pairKey e2 e1 = None ->
  override_guard (Some po) e1 e2 = false.
Proof.
  intros Hk1 Hk2. unfold override_guard, Js.or.
  rewrite Hk1, truthy_zero, Hk2. reflexivity.
Qed.

Lemma nacl_zero_override_guard :
  override_guard nacl_zero_override "Na" "Cl" = false.
Proof.
  unfold nacl_zero_override. apply zero_entry_guard.
  - apply lookup_singleton_eq.
  - apply lookup_singleton_ne. discriminate.
Qed.

(** The code follows the rule of the specification on every pair whose
    entries, if any, are not zero. *)
Lemma pair_cutoff_refines_spec s minCut maxCut pairOverrides e1 e2 :
  override_at pairOverrides (pairKey e1 e2) <> Some 0 ->
  override_at pairOverrides (pairKey e2 e1) <> Some 0 ->
  pair_cutoff s minCut maxCut pairOverrides e1 e2 =
  pair_cutoff_spec s minCut maxCut pairOverrides e1 e2.
Proof.
  intros H1 H2. unfold pair_cutoff_spec.
  destruct pairOverrides as [po|]; [|reflexivity]. simpl in *.
  destruct (po !! pairKey e1 e2) as [v1|] eqn:E1.
  - apply pair_cutoff_first_key; congruence.
  - destruct (po !! pairKey e2 e1) as [v2|] eqn:E2.
    + apply pair_cutoff_second_key; [rewrite E1; reflexivity|exact E2|congruence].
    + apply pair_cutoff_radii, override_guard_no_entry; assumption.
Qed.

(** C2, at the failing input. With the override object [{"Na-Cl": 0}] the
    pair Na, Cl has an entry under its first key, yet its cutoff is the
    clamped radius sum 1.1 * (1.55 + 0.99) = 2.794 and not the entry 0, and
    the two sites 2.5 angstrom apart are bonded. *)
Theorem zero_override_falls_through :
  override_at nacl_zero_override (pairKey "Na" "Cl") = Some 0 /\
  pair_cutoff_spec 1.1 0.7 3.2 nacl_zero_override "Na" "Cl" = 0 /\
  pair_cutoff 1.1 0.7 3.2 nacl_zero_override "Na" "Cl" = 2.794 /\
  calculateBonds nacl_cell 1.1 0.7 3.2 nacl_zero_override =
  [mkBond 0 1 2.5 2.794].
Proof.
  assert (Hc : pair_cutoff 1.1 0.7 3.2 nacl_zero_override "Na" "Cl" = 2.794).
  { rewrite pair_cutoff_radii by exact nacl_zero_override_guard.
    rewrite radius_Na, radius_Cl. rewrite clamp_inside; lra. }
  assert (Hk : override_at nacl_zero_override (pairKey "Na" "Cl") = Some 0)
    by apply lookup_singleton_eq.
  split; [exact Hk|]. split; [unfold pair_cutoff_spec; rewrite Hk; reflexivity|].
  split; [exact Hc|].
  rewrite (calculateBonds_two_sites nacl_cell _ _ _ _
             (site_at "Na" 0 0 0) (site_at "Cl" (1/2) 0 0) eq_refl).
  cbv zeta. simpl element. simpl frac. simpl lattice.
  rewrite Hc, nacl_distance. rewrite leb_true by lra. reflexivity.
Qed.

(** ** A scale factor that is not positive *)

(** With a scale factor that is not positive and no override in force the
    cutoff is at most [max minCut 0]. *)
Lemma pair_cutoff_nonpositive_scale s minCut maxCut pairOverrides e1 e2 :
  s <= 0 ->
  override_guard pairOverrides e1 e2 = false ->
  pair_cutoff s minCut maxCut pairOverrides e1 e2 <= Rmax minCut 0.
Proof.
  intros Hs Hg. rewrite pair_cutoff_radii by exact Hg.
  apply clamp_upper.
  pose proof (getCovalentRadius_pos e1). pose proof (getCovalentRadius_pos e2).
  nra.
Qed.

(** C1, as amended. With a scale factor that is zero or negative, no bond
    is returned when no pair of sites has an override in force and every
    pair of sites is farther apart than [max minCut 0]. *)
Theorem nonpositive_scale_no_bonds (crystal : CrystalStructure)
    (scaleFactor minCut maxCut : R)
    (pairOverrides : option (gmap string R)) :
  scaleFactor <= 0 ->
  (forall i j site1 site2, (i < j)%nat ->
     sites crystal !! i = Some site1 ->
     sites crystal !! j = Some site2 ->
     override_guard pairOverrides (element site1) (element site2) = false /\
     Rmax minCut 0 <
       periodicDistance (frac site1) (frac site2)
                        (matrix (lattice crystal))) ->
  calculateBonds crystal scaleFactor minCut maxCut pairOverrides = [].
Proof.
  intros Hs Hfar.
  destruct (calculateBonds crystal scaleFactor minCut maxCut pairOverrides)
    as [|b bonds] eqn:Hbonds; [reflexivity|exfalso].
  assert (Hb : In b (calculateBonds crystal scaleFactor minCut maxCut
                                    pairOverrides))
    by (rewrite Hbonds; left; reflexivity).
  apply in_calculateBonds in Hb as (i & j & Hij & Hb).
  apply emitted_spec in Hb as (site1 & site2 & E1 & E2 & Hle & _).
  destruct (Hfar i j site1 site2 ltac:(lia) E1 E2) as [Hg Hd].
  pose proof (pair_cutoff_nonpositive_scale scaleFactor minCut maxCut
                pairOverrides (element site1) (element site2) Hs Hg).
  lra.
Qed.

Lemma nonpositive_scale_no_bonds_witness :
  0 <= 0 /\ calculateBonds nacl_cell 0 0.7 3.2 None = [].
Proof.
  split; [lra|].
  apply (nonpositive_scale_no_bonds nacl_cell 0 0.7 3.2 None); [lra|].
  intros i j site1 site2 Hij E1 E2. split; [reflexivity|].
  destruct i as [|[|i]]; [| |discriminate E1].
  - destruct j as [|[|j]]; [lia| |discriminate E2].
    injection E1 as <-. injection E2 as <-.
    simpl frac. simpl lattice. rewrite nacl_distance.
    unfold Rmax. destruct (Rle_dec 0.7 0); lra.
  - destruct j as [|[|j]]; [lia|lia|discriminate E2].
Defined.

(** C1, counterexample. With scale factor 0 and the default limits the two
    H sites, 0.5 angstrom apart, are bonded: the clamp raises the cutoff to
    [minCut = 0.7]. *)
Lemma zero_scale_still_bonds :
  0 <= 0 /\ calculateBonds h2_cell 0 0.7 3.2 None <> [].
Proof.
  split; [lra|].
  rewrite (calculateBonds_two_sites h2_cell _ _ _ _
             (site_at "H" 0 0 0) (site_at "H" (1/8) 0 0) eq_refl).
  cbv zeta. simpl element. simpl frac. simpl lattice.
  rewrite pair_cutoff_radii by reflexivity.
  rewrite radius_H, h2_distance. rewrite clamp_below by lra.
  rewrite leb_true by lra. discriminate.
Qed.

(** The same with a negative scale factor. *)
Example negative_scale_still_bonds :
  calculateBonds h2_cell (-1) 0.7 3.2 None = [mkBond 0 1 0.5 0.7].
Proof.
  rewrite (calculateBonds_two_sites h2_cell _ _ _ _
             (site_at "H" 0 0 0) (site_at "H" (1/8) 0 0) eq_refl).
  cbv zeta. simpl element. simpl frac. simpl lattice.
  rewrite pair_cutoff_radii by reflexivity.
  rewrite radius_H, h2_distance. rewrite clamp_below by lra.
  rewrite leb_true by lra. reflexivity.
Qed.

(** ** Instances *)

Lemma calculateBonds_count_mono_witness :
  0.5 <= 1.1 /\
  (length (calculateBonds nacl_cell 0.5 0.7 3.2 None) <=
   length (calculateBonds nacl_cell 1.1 0.7 3.2 None))%nat.
Proof.
  split; [lra|].
  apply (calculateBonds_count_mono nacl_cell 0.5 1.1 0.7 3.2 None). lra.
Defined.

(** On the Na, Cl cell the count does grow: the cutoff 0.5 * 2.54 = 1.27 is
    below the distance 2.5, the cutoff 1.1 * 2.54 = 2.794 is above it. *)
Example nacl_half_scale : calculateBonds nacl_cell 0.5 0.7 3.2 None = [].
Proof.
  rewrite (calculateBonds_two_sites nacl_cell _ _ _ _
             (site_at "Na" 0 0 0) (site_at "Cl" (1/2) 0 0) eq_refl).
  cbv zeta. simpl element. simpl frac. simpl lattice.
  rewrite pair_cutoff_radii by reflexivity.
  rewrite radius_Na, radius_Cl, nacl_distance.
  rewrite clamp_inside by lra. rewrite leb_false by lra. reflexivity.
Qed.

Example nacl_default_scale :
  calculateBonds nacl_cell default_scaleFactor default_minCut
                 default_maxCut None
  = [mkBond 0 1 2.5 2.794].
Proof.
  unfold default_scaleFactor, default_minCut, default_maxCut.
  rewrite (calculateBonds_two_sites nacl_cell _ _ _ _
             (site_at "Na" 0 0 0) (site_at "Cl" (1/2) 0 0) eq_refl).
  cbv zeta. simpl element. simpl frac. simpl lattice.
  rewrite pair_cutoff_radii by reflexivity.
  rewrite radius_Na, radius_Cl, nacl_distance.
  rewrite clamp_inside by lra. rewrite leb_true by lra.
  f_equal. f_equal. lra.
Qed.

Lemma calculateBonds_ignores_pbc_witness :
  lattice nacl_cell = lattice nacl_slab /\
  sites nacl_cell = sites nacl_slab /\
  calculateBonds nacl_cell 1.1 0.7 3.2 None =
  calculateBonds nacl_slab 1.1 0.7 3.2 None.
Proof.
  split; [reflexivity|]. split; [reflexivity|].
  apply (calculateBonds_ignores_pbc nacl_cell nacl_slab 1.1 0.7 3.2 None);
    reflexivity.
Defined.

(** With inverted limits and no override object every returned bond
    carries the cutoff [minCut]. *)
Lemma inverted_limits_bond_cutoffs crystal s minCut maxCut :
  maxCut < minCut ->
  Forall (fun b => cutoff b = minCut)
         (calculateBonds crystal s minCut maxCut None).
Proof.
  intros Hinv. apply Forall_forall. intros b Hb%list_elem_of_In.
  apply in_calculateBonds in Hb as (i & j & _ & Hb).
  apply emitted_spec in Hb as (site1 & site2 & _ & _ & _ & ->).
  simpl. rewrite pair_cutoff_radii by reflexivity.
  apply clamp_inverted, Hinv.
Qed.

(** * Further properties *)

(** ** Wrapping *)

Lemma wrapFractional_in_range (u : list R) :
  Forall (fun f => 0 <= f < 1) u -> wrapFractional u = u.
Proof.
  unfold wrapFractional. induction 1 as [|f u Hf _ IH]; simpl; [reflexivity|].
  f_equal; [|exact IH].
  unfold Js.Math_floor. rewrite (Zfloor_eq 0 f) by lra. lra.
Qed.

(** X3. A vector whose components already lie in [[0, 1)] is returned as
    it is. *)
Theorem wrapFractional_fixes_unit_cell (v : list R) :
  Forall (fun f => 0 <= f < 1) v -> wrapFractional v = v.
Proof. apply wrapFractional_in_range. Qed.

Lemma wrapFractional_fixes_unit_cell_witness :
  Forall (fun f => 0 <= f < 1) [0; 1/4; 1/2] /\
  wrapFractional [0; 1/4; 1/2] = [0; 1/4; 1/2].
Proof.
  assert (H : Forall (fun f => 0 <= f < 1) [0; 1/4; 1/2])
    by (repeat constructor; lra).
  split; [exact H|].
  exact (wrapFractional_fixes_unit_cell [0; 1/4; 1/2] H).
Defined.

(** ** The minimum image *)

(** X4. Each component of [minimumImage] lies in [[-0.5, 0.5)], the range
    that the source documents. *)
Theorem minimumImage_range (v : list R) :
  Forall (fun f => -0.5 <= f < 0.5) (minimumImage v).
Proof.
  unfold minimumImage.
  induction v as [|f v IH]; simpl; constructor; [|exact IH].
  pose proof (Math_round_bound f). lra.
Qed.

(** X5. Taking the minimum image twice is taking it once. *)
Theorem minimumImage_idempotent (v : list R) :
  minimumImage (minimumImage v) = minimumImage v.
Proof.
  unfold minimumImage. rewrite map_map. apply map_ext. intros f.
  pose proof (Math_round_bound f).
  rewrite (Math_round_eq (f - Js.Math_round f) 0) by lra. ring.
Qed.

(** ** More on the periodic distance *)

Lemma Math_round_IZR (k : Z) : Js.Math_round (IZR k) = IZR k.
Proof. apply Math_round_eq. lra. Qed.

(** When the three differences that [periodicDistance] computes are
    integers, each is its own rounding and the wrapped difference is
    zero. *)
Lemma periodicDistance_integer_difference
    (x0 x1 x2 y0 y1 y2 : R) (k0 k1 k2 : Z) (L : list (list R)) :
  y0 - x0 = IZR k0 -> y1 - x1 = IZR k1 -> y2 - x2 = IZR k2 ->
  periodicDistance [x0; x1; x2] [y0; y1; y2] L = 0.
Proof.
  intros H0 H1 H2. rewrite periodicDistance_unfold. cbv zeta.
  rewrite H0, H1, H2, !Math_round_IZR.
  match goal with |- sqrt ?a = 0 => replace a with 0 by ring end.
  apply sqrt_0.
Qed.

(** X6. Two points whose computed differences [y0 - x0], [y1 - x1] and
    [y2 - x2] are integers are at periodic distance 0, for every lattice
    matrix. *)
Theorem periodicDistance_zero_on_integer_difference
    (x0 x1 x2 y0 y1 y2 : R) (k0 k1 k2 : Z) (L : list (list R)) :
  y0 - x0 = IZR k0 -> y1 - x1 = IZR k1 -> y2 - x2 = IZR k2 ->
  periodicDistance [x0; x1; x2] [y0; y1; y2] L = 0.
Proof. apply periodicDistance_integer_difference. Qed.

Lemma periodicDistance_zero_on_integer_difference_witness :
  5/4 - 1/4 = IZR 1 /\ 1/2 - 1/2 = IZR 0 /\ 0 - 3 = IZR (-3) /\
  periodicDistance [1/4; 1/2; 3] [5/4; 1/2; 0] sheared_cell = 0.
Proof.
  assert (H0 : 5/4 - 1/4 = IZR 1) by lra.
  assert (H1 : 1/2 - 1/2 = IZR 0) by lra.
  assert (H2 : 0 - 3 = IZR (-3)) by lra.
  split; [exact H0|]. split; [exact H1|]. split; [exact H2|].
  exact (periodicDistance_zero_on_integer_difference
           (1/4) (1/2) 3 (5/4) (1/2) 0 1 0 (-3) sheared_cell H0 H1 H2).
Defined.

(** ** Fractional and Cartesian coordinates *)

(** X10. The rows of the lattice matrix are the lattice vectors:
    [fracToCartesian] sends the three unit vectors to the three rows, and
    on a diagonal matrix it scales each component by the entry of its
    axis.  The Cartesian coordinates written out in [createSiCrystal] are
    those that [fracToCartesian] gives for its fractional coordinates. *)
Theorem fracToCartesian_rows
    (r00 r01 r02 r10 r11 r12 r20 r21 r22 f0 f1 f2 a b c : R) :
  let L := [ [r00; r01; r02]; [r10; r11; r12]; [r20; r21; r22] ] in
  fracToCartesian [1; 0; 0] L = [r00; r01; r02] /\
  fracToCartesian [0; 1; 0] L = [r10; r11; r12] /\
  fracToCartesian [0; 0; 1] L = [r20; r21; r22] /\
  fracToCartesian [f0; f1; f2] [ [a; 0; 0]; [0; b; 0]; [0; 0; c] ] =
  [f0 * a; f1 * b; f2 * c] /\
  Forall (fun site =>
            cartesian site =
            Some (fracToCartesian (frac site)
                                  (matrix (lattice createSiCrystal))))
         (sites createSiCrystal).
Proof.
  cbv zeta. unfold fracToCartesian, Js.at2, Js.at1. cbn [nth].
  repeat split; try (repeat f_equal; ring).
  unfold createSiCrystal. cbn [sites lattice matrix frac cartesian nth].
  repeat constructor; cbn [frac cartesian nth]; repeat f_equal; lra.
Qed.

(** ** Supercell translations *)

Lemma loop_counters_spec (bound : R) (x : nat) :
  In x (loop_counters bound) <-> INR x < bound.
Proof.
  unfold loop_counters. rewrite in_seq.
  pose proof (Zceil_bound bound) as [Hlo Hhi].
  rewrite INR_IZR_INZ. split.
  - intros [_ Hx].
    assert (Hz : (Z.of_nat x + 1 <= Zceil bound)%Z) by lia.
    apply IZR_le in Hz. rewrite plus_IZR in Hz. lra.
  - intros Hx. split; [lia|].
    assert (Hz : (Z.of_nat x < Zceil bound)%Z) by (apply lt_IZR; lra).
    lia.
Qed.

Lemma loop_counters_INR (n : nat) : loop_counters (INR n) = seq 0 n.
Proof.
  unfold loop_counters. rewrite INR_IZR_INZ.
  rewrite (Zceil_eq (Z.of_nat n)) by lra.
  rewrite Nat2Z.id. reflexivity.
Qed.

(** The three loops as a list comprehension. *)
Lemma generateSupercellTranslations_rows (size : list R) :
  generateSupercellTranslations size =
  flat_map
    (fun x =>
       flat_map
         (fun y =>
            flat_map (fun z => [[INR x; INR y; INR z]])
                     (loop_counters (Js.at1 size 2)))
         (loop_counters (Js.at1 size 1)))
    (loop_counters (Js.at1 size 0)).
Proof.
  unfold generateSupercellTranslations.
  rewrite <- (app_nil_l (flat_map _ _)), <- fold_left_push.
  apply fold_left_ext. intros t x.
  rewrite <- fold_left_push. apply fold_left_ext. intros t' y.
  rewrite <- fold_left_push. reflexivity.
Qed.

(** X14. The translations returned are exactly the vectors [(x, y, z)] of
    natural numbers with [x < size[0]], [y < size[1]] and [z < size[2]]. *)
Theorem generateSupercellTranslations_spec (size t : list R) :
  In t (generateSupercellTranslations size) <->
  exists x y z : nat,
    t = [INR x; INR y; INR z] /\
    INR x < Js.at1 size 0 /\ INR y < Js.at1 size 1 /\ INR z < Js.at1 size 2.
Proof.
  rewrite generateSupercellTranslations_rows, in_flat_map. split.
  - intros (x & Hx & Ht). apply in_flat_map in Ht as (y & Hy & Ht).
    apply in_flat_map in Ht as (z & Hz & [<-|[]]).
    apply loop_counters_spec in Hx, Hy, Hz.
    exists x, y, z. auto.
  - intros (x & y & z & -> & Hx & Hy & Hz).
    apply loop_counters_spec in Hx, Hy, Hz.
    exists x. split; [exact Hx|]. apply in_flat_map.
    exists y. split; [exact Hy|]. apply in_flat_map.
    exists z. split; [exact Hz|]. left. reflexivity.
Qed.

Lemma length_flat_map_const {A B} (f : A -> list B) (l : list A) (n : nat) :
  (forall x, length (f x) = n) -> length (flat_map f l) = (length l * n)%nat.
Proof.
  intros Hf. induction l as [|x l IH]; simpl; [reflexivity|].
  rewrite length_app, Hf, IH. reflexivity.
Qed.

(** X15. For a supercell of [nx] by [ny] by [nz] cells there are
    [nx * ny * nz] translations. *)
Theorem generateSupercellTranslations_length (nx ny nz : nat) :
  length (generateSupercellTranslations [INR nx; INR ny; INR nz]) =
  (nx * ny * nz)%nat.
Proof.
  rewrite generateSupercellTranslations_rows.
  unfold Js.at1. cbn [nth]. rewrite !loop_counters_INR.
  rewrite (length_flat_map_const _ _ (ny * nz)).
  - rewrite length_seq. lia.
  - intros x. rewrite (length_flat_map_const _ _ nz).
    + rewrite length_seq. reflexivity.
    + intros y. rewrite (length_flat_map_const _ _ 1).
      * rewrite length_seq. lia.
      * reflexivity.
Qed.

(** X16. The translations come in row-major order, the third index moving
    fastest: the sequence is strictly ascending in the lexicographic
    order, so no translation is listed twice. *)
Theorem generateSupercellTranslations_sorted (size : list R) :
  StronglySorted translation_lex_lt (generateSupercellTranslations size) /\
  NoDup (generateSupercellTranslations size).
Proof.
  assert (Hsorted : StronglySorted translation_lex_lt
                      (generateSupercellTranslations size)).
  { rewrite generateSupercellTranslations_rows.
    apply (StronglySorted_flat_map Nat.lt); [apply StronglySorted_seq| |].
    - intros x _.
      apply (StronglySorted_flat_map Nat.lt); [apply StronglySorted_seq| |].
      + intros y _.
        apply (StronglySorted_flat_map Nat.lt); [apply StronglySorted_seq| |].
        * intros z _. repeat constructor.
        * intros z1 z2 t1 t2 _ _ Hz [<-|[]] [<-|[]].
          right. split; [reflexivity|]. right. split; [reflexivity|].
          unfold Js.at1. cbn [nth]. apply lt_INR, Hz.
      + intros y1 y2 t1 t2 _ _ Hy Ht1 Ht2.
        apply in_flat_map in Ht1 as (z1 & _ & [<-|[]]).
        apply in_flat_map in Ht2 as (z2 & _ & [<-|[]]).
        right. split; [reflexivity|]. left.
        unfold Js.at1. cbn [nth]. apply lt_INR, Hy.
    - intros x1 x2 t1 t2 _ _ Hx Ht1 Ht2.
      apply in_flat_map in Ht1 as (y1 & _ & Ht1).
      apply in_flat_map in Ht1 as (z1 & _ & [<-|[]]).
      apply in_flat_map in Ht2 as (y2 & _ & Ht2).
      apply in_flat_map in Ht2 as (z2 & _ & [<-|[]]).
      left. unfold Js.at1. cbn [nth]. apply lt_INR, Hx. }
  split; [exact Hsorted|].
  induction Hsorted as [|t l _ IH Ht]; constructor; [|exact IH].
  intros Hin. rewrite Forall_forall in Ht. apply Ht in Hin.
  unfold translation_lex_lt in Hin. lra.
Qed.

(** X17. A size that is zero or negative along some axis gives no
    translation at all. *)
Theorem generateSupercellTranslations_empty (size : list R) :
  Js.at1 size 0 <= 0 \/ Js.at1 size 1 <= 0 \/ Js.at1 size 2 <= 0 ->
  generateSupercellTranslations size = [].
Proof.
  intros Hsize.
  destruct (generateSupercellTranslations size) as [|t l] eqn:Hgen;
    [reflexivity|exfalso].
  assert (Ht : In t (generateSupercellTranslations size))
    by (rewrite Hgen; left; reflexivity).
  rewrite generateSupercellTranslations_rows in Ht.
  apply in_flat_map in Ht as (x & Hx & Ht).
  apply in_flat_map in Ht as (y & Hy & Ht).
  apply in_flat_map in Ht as (z & Hz & _).
  apply loop_counters_spec in Hx, Hy, Hz.
  pose proof (pos_INR x). pose proof (pos_INR y). pose proof (pos_INR z).
  lra.
Qed.

Lemma generateSupercellTranslations_empty_witness :
  (Js.at1 [2; 0; 3] 0 <= 0 \/ Js.at1 [2; 0; 3] 1 <= 0
   \/ Js.at1 [2; 0; 3] 2 <= 0) /\
  generateSupercellTranslations [2; 0; 3] = [].
Proof.
  assert (H : Js.at1 [2; 0; 3] 0 <= 0 \/ Js.at1 [2; 0; 3] 1 <= 0
              \/ Js.at1 [2; 0; 3] 2 <= 0).
  { right. left. unfold Js.at1. cbn [nth]. lra. }
  split; [exact H|].
  exact (generateSupercellTranslations_empty [2; 0; 3] H).
Defined.

(** ** More on the bonds *)

(** X18. The bonds returned are exactly the pairs [i < j] of sites whose
    periodic distance is within the cutoff of their two elements, each
    with that distance and that cutoff: no such pair is missed and nothing
    else is returned. *)
Theorem calculateBonds_spec (crystal : CrystalStructure)
    (scaleFactor minCut maxCut : R)
    (pairOverrides : option (gmap string R)) (b : Bond) :
  In b (calculateBonds crystal scaleFactor minCut maxCut pairOverrides) <->
  exists i j site1 site2,
    (i < j)%nat /\
    sites crystal !! i = Some site1 /\
    sites crystal !! j = Some site2 /\
    periodicDistance (frac site1) (frac site2) (matrix (lattice crystal))
      <= pair_cutoff scaleFactor minCut maxCut pairOverrides
                     (element site1) (element site2) /\
    b = mkBond i j
          (periodicDistance (frac site1) (frac site2)
                            (matrix (lattice crystal)))
          (pair_cutoff scaleFactor minCut maxCut pairOverrides
                       (element site1) (element site2)).
Proof.
  rewrite in_calculateBonds. split.
  - intros (i & j & Hij & Hb).
    apply emitted_spec in Hb as (site1 & site2 & E1 & E2 & Hle & ->).
    exists i, j, site1, site2. repeat split; try assumption. lia.
  - intros (i & j & site1 & site2 & Hij & E1 & E2 & Hle & ->).
    exists i, j. split.
    + apply lookup_lt_Some in E2. lia.
    + apply emitted_spec. exists site1, site2. auto.
Qed.

(** X19. Every bond refers to two sites of the structure, and its
    distance lies between 0 and its cutoff. *)
Theorem calculateBonds_in_range (crystal : CrystalStructure)
    (scaleFactor minCut maxCut : R)
    (pairOverrides : option (gmap string R)) :
  Forall (fun b => (atom2 b < length (sites crystal))%nat /\
                   0 <= distance b <= cutoff b)
    (calculateBonds crystal scaleFactor minCut maxCut pairOverrides).
Proof.
  apply Forall_forall. intros b Hb%list_elem_of_In.
  apply in_calculateBonds in Hb as (i & j & Hij & Hb).
  apply emitted_spec in Hb as (site1 & site2 & _ & _ & Hle & ->).
  simpl. split; [lia|]. split; [apply sqrt_pos|exact Hle].
Qed.

(** X20. A structure with fewer than two sites has no bonds. *)
Theorem calculateBonds_few_sites (crystal : CrystalStructure)
    (scaleFactor minCut maxCut : R)
    (pairOverrides : option (gmap string R)) :
  (length (sites crystal) <= 1)%nat ->
  calculateBonds crystal scaleFactor minCut maxCut pairOverrides = [].
Proof.
  intros Hn.
  destruct (calculateBonds crystal scaleFactor minCut maxCut pairOverrides)
    as [|b bonds] eqn:Hbonds; [reflexivity|exfalso].
  assert (Hb : In b (calculateBonds crystal scaleFactor minCut maxCut
                                    pairOverrides))
    by (rewrite Hbonds; left; reflexivity).
  apply in_calculateBonds in Hb as (i & j & Hij & _). lia.
Qed.

Lemma calculateBonds_few_sites_witness :
  (length (sites lone_site) <= 1)%nat /\
  calculateBonds lone_site 1.1 0.7 3.2 None = [].
Proof.
  assert (H : (length (sites lone_site) <= 1)%nat) by (simpl; lia).
  split; [exact H|].
  exact (calculateBonds_few_sites lone_site 1.1 0.7 3.2 None H).
Defined.

Lemma flat_map_length_bound {A B} (f : A -> list B) (g : A -> nat)
    (l : list A) :
  (forall x, (length (f x) <= g x)%nat) ->
  (length (flat_map f l) <= list_sum (map g l))%nat.
Proof.
  intros Hf. induction l as [|x l IH]; simpl; [lia|].
  rewrite length_app. pose proof (Hf x). lia.
Qed.

Lemma triangle_sum (n k : nat) :
  (k <= n)%nat ->
  (2 * list_sum (map (fun i => n - (i + 1)) (seq 0 k))
   = k * (2 * n - k - 1))%nat.
Proof.
  induction k as [|k IH]; intros Hk; [reflexivity|].
  rewrite seq_S, map_app, list_sum_app. simpl list_sum.
  specialize (IH ltac:(lia)). nia.
Qed.

(** X21. [n] sites give at most [n (n - 1) / 2] bonds: one for each pair
    at most. *)
Theorem calculateBonds_count_bound (crystal : CrystalStructure)
    (scaleFactor minCut maxCut : R)
    (pairOverrides : option (gmap string R)) :
  (2 * length (calculateBonds crystal scaleFactor minCut maxCut
                              pairOverrides)
   <= length (sites crystal) * (length (sites crystal) - 1))%nat.
Proof.
  rewrite calculateBonds_rows.
  set (n := length (sites crystal)).
  assert (Hrows :
    (length (flat_map
               (fun i => flat_map
                  (emitted crystal scaleFactor minCut maxCut pairOverrides i)
                  (row n i)) (seq 0 n))
     <= list_sum (map (fun i => n - (i + 1)) (seq 0 n)))%nat).
  { apply flat_map_length_bound. intros i.
    replace (n - (i + 1))%nat with (list_sum (map (fun _ => 1%nat) (row n i))).
    - apply flat_map_length_bound. intros j. apply emitted_length.
    - unfold row. generalize (i + 1)%nat, (n - (i + 1))%nat.
      intros st len. revert st.
      induction len as [|len IH]; intros st; simpl; [reflexivity|].
      rewrite IH. reflexivity. }
  pose proof (triangle_sum n n ltac:(lia)). nia.
Qed.

(** ** Cutoffs and limits *)

Lemma clamp_mono_limits (lo1 lo2 hi1 hi2 x : R) :
  lo1 <= lo2 -> hi1 <= hi2 ->
  Js.Math_max lo1 (Js.Math_min hi1 x) <= Js.Math_max lo2 (Js.Math_min hi2 x).
Proof.
  intros Hlo Hhi. unfold Js.Math_max, Js.Math_min.
  apply Rmax_case_strong; apply Rmax_case_strong;
    apply Rmin_case_strong; apply Rmin_case_strong; intros; lra.
Qed.

Lemma clamp_range (lo hi x : R) :
  lo <= Js.Math_max lo (Js.Math_min hi x) /\
  (lo <= hi -> Js.Math_max lo (Js.Math_min hi x) <= hi).
Proof.
  unfold Js.Math_max, Js.Math_min.
  apply Rmax_case_strong; apply Rmin_case_strong; intros; lra.
Qed.

(** The number of bonds grows with the cutoffs. *)
Lemma calculateBonds_count_le crystal s1 s2 mn1 mn2 mx1 mx2 po :
  (forall e1 e2, pair_cutoff s1 mn1 mx1 po e1 e2
                 <= pair_cutoff s2 mn2 mx2 po e1 e2) ->
  (length (calculateBonds crystal s1 mn1 mx1 po) <=
   length (calculateBonds crystal s2 mn2 mx2 po))%nat.
Proof.
  intros Hc. rewrite !calculateBonds_rows.
  apply flat_map_length_le. intros i _.
  apply flat_map_length_le. intros j _.
  unfold emitted, visit_pair, Js.leb.
  destruct (sites crystal !! i) as [site1|]; [|simpl; lia].
  destruct (sites crystal !! j) as [site2|]; [|simpl; lia].
  cbv zeta. specialize (Hc (element site1) (element site2)).
  destruct (Rle_dec _ (pair_cutoff s1 _ _ _ _ _)) as [H1|H1];
    destruct (Rle_dec _ (pair_cutoff s2 _ _ _ _ _)) as [H2|H2];
    simpl; try lia.
  exfalso. apply H2. lra.
Qed.

(** X22. With the structure, the scale factor and the overrides fixed,
    raising [minCut] or [maxCut] never gives fewer bonds. *)
Theorem calculateBonds_count_mono_limits (crystal : CrystalStructure)
    (scaleFactor mn1 mn2 mx1 mx2 : R)
    (pairOverrides : option (gmap string R)) :
  mn1 <= mn2 -> mx1 <= mx2 ->
  (length (calculateBonds crystal scaleFactor mn1 mx1 pairOverrides) <=
   length (calculateBonds crystal scaleFactor mn2 mx2 pairOverrides))%nat.
Proof.
  intros Hmn Hmx. apply calculateBonds_count_le. intros e1 e2.
  destruct (override_guard pairOverrides e1 e2) eqn:Hg.
  - rewrite (pair_cutoff_override scaleFactor scaleFactor mn1 mn2 mx1 mx2)
      by exact Hg.
    lra.
  - rewrite !pair_cutoff_radii by exact Hg.
    apply clamp_mono_limits; assumption.
Qed.

Lemma calculateBonds_count_mono_limits_witness :
  0.7 <= 0.9 /\ 2.0 <= 3.2 /\
  (length (calculateBonds nacl_cell 1.1 0.7 2.0 None) <=
   length (calculateBonds nacl_cell 1.1 0.9 3.2 None))%nat.
Proof.
  assert (H1 : 0.7 <= 0.9) by lra.
  assert (H2 : 2.0 <= 3.2) by lra.
  split; [exact H1|]. split; [exact H2|].
  exact (calculateBonds_count_mono_limits nacl_cell 1.1 0.7 0.9 2.0 3.2 None
           H1 H2).
Defined.



(** X25. The cutoff of a pair does not depend on the order of its two
    elements, unless both keys ["e1-e2"] and ["e2-e1"] carry an entry that
    is not zero. *)
Theorem pair_cutoff_order (scaleFactor minCut maxCut : R)
    (pairOverrides : option (gmap string R)) (element1 element2 : string) :
  Js.truthy (override_at pairOverrides (pairKey element1 element2)) = false \/
  Js.truthy (override_at pairOverrides (pairKey element2 element1)) = false ->
  pair_cutoff scaleFactor minCut maxCut pairOverrides element1 element2 =
  pair_cutoff scaleFactor minCut maxCut pairOverrides element2 element1.
Proof.
  intros Hone. unfold pair_cutoff, override_guard. cbv zeta.
  destruct pairOverrides as [po|]; simpl in *.
  - unfold Js.or_num, Js.or.
    destruct (Js.truthy (po !! pairKey element1 element2)) eqn:T1;
      destruct (Js.truthy (po !! pairKey element2 element1)) eqn:T2;
      rewrite ?T1, ?T2; try reflexivity.
    + destruct Hone; discriminate.
    + rewrite (Rplus_comm (match _ with Some r => r | None => _ end)).
      reflexivity.
  - unfold Js.or_num.
    rewrite (Rplus_comm (match _ with Some r => r | None => _ end)).
    reflexivity.
Qed.

Lemma pair_cutoff_order_witness :
  (Js.truthy (override_at nacl_override (pairKey "Na" "Cl")) = false \/
   Js.truthy (override_at nacl_override (pairKey "Cl" "Na")) = false) /\
  pair_cutoff 1.1 0.7 3.2 nacl_override "Na" "Cl" =
  pair_cutoff 1.1 0.7 3.2 nacl_override "Cl" "Na".
Proof.
  assert (H : Js.truthy (override_at nacl_override (pairKey "Na" "Cl"))
              = false \/
              Js.truthy (override_at nacl_override (pairKey "Cl" "Na"))
              = false).
  { right. reflexivity. }
  split; [exact H|].
  exact (pair_cutoff_order 1.1 0.7 3.2 nacl_override "Na" "Cl" H).
Defined.

(** ** Periodic images among the sites *)

(** X24. Two sites with three fractional coordinates each, whose computed
    coordinate differences are integers, are at periodic distance 0: they
    are bonded to each other, with distance 0, whenever the cutoff of
    their pair is not negative. *)
Theorem periodic_images_bonded (crystal : CrystalStructure)
    (scaleFactor minCut maxCut : R)
    (pairOverrides : option (gmap string R))
    (i j : nat) (site1 site2 : Site)
    (x0 x1 x2 y0 y1 y2 : R) (k0 k1 k2 : Z) :
  (i < j)%nat ->
  sites crystal !! i = Some site1 ->
  sites crystal !! j = Some site2 ->
  frac site1 = [x0; x1; x2] ->
  frac site2 = [y0; y1; y2] ->
  y0 - x0 = IZR k0 -> y1 - x1 = IZR k1 -> y2 - x2 = IZR k2 ->
  0 <= pair_cutoff scaleFactor minCut maxCut pairOverrides
                   (element site1) (element site2) ->
  In (mkBond i j 0
        (pair_cutoff scaleFactor minCut maxCut pairOverrides
                     (element site1) (element site2)))
     (calculateBonds crystal scaleFactor minCut maxCut pairOverrides).
Proof.
  intros Hij E1 E2 F1 F2 H0 H1 H2 Hc.
  assert (Hd : periodicDistance (frac site1) (frac site2)
                                (matrix (lattice crystal)) = 0).
  { rewrite F1, F2.
    exact (periodicDistance_integer_difference
             x0 x1 x2 y0 y1 y2 k0 k1 k2 _ H0 H1 H2). }
  apply in_calculateBonds. exists i, j. split.
  - apply lookup_lt_Some in E2. lia.
  - apply emitted_spec. exists site1, site2.
    rewrite Hd. repeat split; assumption.
Qed.

Lemma periodic_images_bonded_witness :
  (0 < 2)%nat /\
  1.0 - 0.0 = IZR 1 /\ 0.0 - 0.0 = IZR 0 /\
  0 <= pair_cutoff 1.1 0.7 3.2 None "Si" "Si" /\
  In (mkBond 0 2 0 (pair_cutoff 1.1 0.7 3.2 None "Si" "Si"))
     (calculateBonds createSiCrystal 1.1 0.7 3.2 None).
Proof.
  assert (Hlt : (0 < 2)%nat) by lia.
  assert (H0 : 1.0 - 0.0 = IZR 1) by lra.
  assert (H1 : 0.0 - 0.0 = IZR 0) by lra.
  assert (Hc : 0 <= pair_cutoff 1.1 0.7 3.2 None "Si" "Si").
  { rewrite pair_cutoff_radii by reflexivity.
    pose proof (clamp_range 0.7 3.2
                  (1.1 * (getCovalentRadius "Si" + getCovalentRadius "Si")))
      as [Hlo _].
    lra. }
  split; [exact Hlt|]. split; [exact H0|]. split; [exact H1|].
  split; [exact Hc|].
  exact (periodic_images_bonded createSiCrystal 1.1 0.7 3.2 None 0 2
           (mkSite "Si" [0.0; 0.0; 0.0] 1.0 (Some "Si1") None None
                   (Some [0.0; 0.0; 0.0]))
           (mkSite "Si" [1.0; 0.0; 0.0] 1.0 (Some "Si3") None None
                   (Some [5.43; 0.0; 0.0]))
           0.0 0.0 0.0 1.0 0.0 0.0 1 0 0
           Hlt eq_refl eq_refl eq_refl eq_refl H0 H1 H1 Hc).
Defined.

(** ** Element tables *)

Lemma COVALENT_RADII_range (e : string) (r : R) :
  COVALENT_RADII !! e = Some r -> 0.32 <= r <= 1.96.
Proof.
  unfold COVALENT_RADII. intros Hr%elem_of_list_to_map_2.
  repeat (apply elem_of_cons in Hr as [Hr|Hr];
          [injection Hr as _ ->; lra|]).
  inversion Hr.
Qed.

Lemma ATOM_RADII_range (e : string) (r : R) :
  ATOM_RADII !! e = Some r -> 0.31 <= r <= 2.03.
Proof.
  unfold ATOM_RADII. intros Hr%elem_of_list_to_map_2.
  repeat (apply elem_of_cons in Hr as [Hr|Hr];
          [injection Hr as _ ->; lra|]).
  inversion Hr.
Qed.

Lemma get_own (table : gmap string R) (e : string) :
  e ∉ Object_prototype_names ->
  Proto.get table e = Proto.Number <$> table !! e.
Proof.
  intros He. unfold Proto.get.
  destruct (table !! e) as [r|]; [reflexivity|].
  destruct (decide (e ∈ Object_prototype_names)); [contradiction|reflexivity].
Qed.

Lemma getCovalentRadius_own (e : string) :
  e ∉ Object_prototype_names ->
  Proto.getCovalentRadius e
  = Some (Proto.Number (default 1 (COVALENT_RADII !! e))).
Proof.
  intros He. unfold Proto.getCovalentRadius, Proto.or.
  rewrite (get_own _ _ He).
  destruct (COVALENT_RADII !! e) as [r|] eqn:Hr; unfold Proto.truthy;
    cbn [fmap option_fmap option_map default].
  - pose proof (COVALENT_RADII_range e r Hr).
    destruct (Req_dec_T r 0); [lra|reflexivity].
  - do 2 f_equal. lra.
Qed.

(** The two readings of [getCovalentRadius] agree on every name that is
    not inherited. *)
Lemma getCovalentRadius_agree (e : string) :
  e ∉ Object_prototype_names ->
  Proto.getCovalentRadius e = Some (Proto.Number (getCovalentRadius e)).
Proof.
  intros He. rewrite (getCovalentRadius_own e He). do 2 f_equal.
  unfold getCovalentRadius, Js.or_num, Js.or.
  destruct (COVALENT_RADII !! e) as [r|] eqn:Hr; unfold Js.truthy;
    cbn [default].
  - pose proof (COVALENT_RADII_range e r Hr).
    destruct (Req_dec_T r 0); [lra|reflexivity].
  - lra.
Qed.

(** At an inherited name the lookup finds a member of [Object.prototype],
    which is truthy: no radius comes back. *)
Lemma getCovalentRadius_inherited (e : string) :
  e ∈ Object_prototype_names ->
  Proto.getCovalentRadius e = Some (Proto.Inherited e) /\
  Proto.getAtomRadius e = Some (Proto.Inherited e).
Proof.
  intros He. unfold Object_prototype_names in He.
  repeat (apply elem_of_cons in He as [->|He]; [split; reflexivity|]).
  inversion He.
Qed.

(** X26. For every element symbol that is not the name of a member of
    [Object.prototype], known to the table or not, [getCovalentRadius]
    returns a number between 0.32 and 1.96. *)
Theorem getCovalentRadius_range (e : string) :
  e ∉ Object_prototype_names ->
  exists r, Proto.getCovalentRadius e = Some (Proto.Number r) /\
            0.32 <= r <= 1.96.
Proof.
  intros He. rewrite (getCovalentRadius_own e He).
  eexists. split; [reflexivity|].
  destruct (COVALENT_RADII !! e) as [r|] eqn:Hr; cbn [default].
  - exact (COVALENT_RADII_range e r Hr).
  - lra.
Qed.

Lemma not_inherited_Na : "Na" ∉ Object_prototype_names.
Proof.
  intros H. unfold Object_prototype_names in H.
  repeat (apply elem_of_cons in H as [H|H]; [discriminate H|]).
  inversion H.
Defined.

Lemma not_inherited_Zzz : "Zzz" ∉ Object_prototype_names.
Proof.
  intros H. unfold Object_prototype_names in H.
  repeat (apply elem_of_cons in H as [H|H]; [discriminate H|]).
  inversion H.
Defined.

Lemma getCovalentRadius_range_witness :
  ("Na" ∉ Object_prototype_names) /\
  exists r, Proto.getCovalentRadius "Na" = Some (Proto.Number r) /\
            0.32 <= r <= 1.96.
Proof.
  split; [exact not_inherited_Na|].
  exact (getCovalentRadius_range "Na" not_inherited_Na).
Defined.

(** X27. For such a symbol [getCovalentRadius] returns the entry of the
    table, or 1 when the table has none: no entry is zero, so none falls
    through to the default. *)
Theorem getCovalentRadius_default (e : string) :
  e ∉ Object_prototype_names ->
  Proto.getCovalentRadius e
  = Some (Proto.Number (default 1 (COVALENT_RADII !! e))).
Proof. apply getCovalentRadius_own. Qed.

Lemma getCovalentRadius_default_witness :
  ("Zzz" ∉ Object_prototype_names) /\
  Proto.getCovalentRadius "Zzz"
  = Some (Proto.Number (default 1 (COVALENT_RADII !! "Zzz"))).
Proof.
  split; [exact not_inherited_Zzz|].
  exact (getCovalentRadius_default "Zzz" not_inherited_Zzz).
Defined.

(** X28. For such a symbol [getAtomRadius] returns a number between 0.31
    and 2.03, never [undefined]: the entry of the table, or the entry 1
    of the placeholder ["X"] when the table has none. *)
Theorem getAtomRadius_defined (e : string) :
  e ∉ Object_prototype_names ->
  exists r, Proto.getAtomRadius e = Some (Proto.Number r) /\
            0.31 <= r <= 2.03 /\
            r = default 1 (ATOM_RADII !! e).
Proof.
  intros He.
  assert (HX : Proto.get ATOM_RADII "X" = Some (Proto.Number 1.0))
    by reflexivity.
  unfold Proto.getAtomRadius, Proto.or. rewrite HX, (get_own _ _ He).
  destruct (ATOM_RADII !! e) as [r|] eqn:Hr; unfold Proto.truthy;
    cbn [fmap option_fmap option_map default].
  - pose proof (ATOM_RADII_range e r Hr).
    destruct (Req_dec_T r 0); [lra|].
    exists r. split; [reflexivity|]. split; [lra|reflexivity].
  - exists 1.0. split; [reflexivity|]. split; lra.
Qed.

Lemma getAtomRadius_defined_witness :
  ("Zzz" ∉ Object_prototype_names) /\
  exists r, Proto.getAtomRadius "Zzz" = Some (Proto.Number r) /\
            0.31 <= r <= 2.03 /\
            r = default 1 (ATOM_RADII !! "Zzz").
Proof.
  split; [exact not_inherited_Zzz|].
  exact (getAtomRadius_defined "Zzz" not_inherited_Zzz).
Defined.

(** ** Coordination labels *)

Lemma last_char_append (s t : string) :
  t <> "" -> last_char (s +:+ t) = last_char t.
Proof.
  intros Ht. induction s as [|a s IH]; [reflexivity|].
  change (String a s +:+ t) with (String a (s +:+ t)).
  simpl. rewrite IH.
  destruct (s +:+ t) eqn:Hst; [|reflexivity].
  destruct s; [simpl in Hst; contradiction | discriminate].
Qed.

Lemma string_length_append (s t : string) :
  String.length (s +:+ t) = (String.length s + String.length t)%nat.
Proof. induction s as [|a s IH]; simpl; [reflexivity|]. f_equal. exact IH. Qed.

Lemma append_cancel_r (s1 s2 t : string) :
  s1 +:+ t = s2 +:+ t -> s1 = s2.
Proof.
  revert s2. induction s1 as [|a s1 IH]; intros [|b s2] Heq.
  - reflexivity.
  - exfalso. apply (f_equal String.length) in Heq.
    rewrite !string_length_append in Heq. simpl in Heq. lia.
  - exfalso. apply (f_equal String.length) in Heq.
    rewrite !string_length_append in Heq. simpl in Heq. lia.
  - simpl in Heq. injection Heq as -> Heq. f_equal. apply IH, Heq.
Qed.

(** The label of a coordination number. *)
Lemma identifyPolyhedronType_cases (neighbors : list Site) :
  (In (length neighbors) [2; 3; 4; 5; 6; 8]%nat /\
   last_char (identifyPolyhedronType neighbors)
   <> last_char "-coordinate") \/
  (~ In (length neighbors) [2; 3; 4; 5; 6; 8]%nat /\
   identifyPolyhedronType neighbors
   = pretty (length neighbors) +:+ "-coordinate").
Proof.
  unfold identifyPolyhedronType. cbv zeta.
  destruct (length neighbors) as [|[|[|[|[|[|[|[|[|n]]]]]]]]];
    first [ right; split; [cbn [In]; lia | reflexivity]
          | left; split; [cbn [In]; lia | cbn; discriminate] ].
Qed.

(** X29. Different coordination numbers get different labels: the label
    determines the number of neighbours. *)
Theorem identifyPolyhedronType_injective (n1 n2 : list Site) :
  identifyPolyhedronType n1 = identifyPolyhedronType n2 ->
  length n1 = length n2.
Proof.
  intros Heq.
  assert (Hlast : forall k : nat,
            last_char (pretty k +:+ "-coordinate")
            = last_char "-coordinate").
  { intros k. apply last_char_append. discriminate. }
  destruct (identifyPolyhedronType_cases n1) as [[H1 L1]|[H1 E1]];
    destruct (identifyPolyhedronType_cases n2) as [[H2 L2]|[H2 E2]].
  - unfold identifyPolyhedronType in Heq. cbv zeta in Heq.
    simpl in H1, H2.
    destruct H1 as [E1|[E1|[E1|[E1|[E1|[E1|[]]]]]]];
      destruct H2 as [E2|[E2|[E2|[E2|[E2|[E2|[]]]]]]];
      rewrite <- E1, <- E2 in Heq |- *;
      first [reflexivity | cbn in Heq; discriminate Heq].
  - exfalso. apply L1. rewrite Heq, E2. apply Hlast.
  - exfalso. apply L2. rewrite <- Heq, E1. apply Hlast.
  - rewrite E1, E2 in Heq. apply append_cancel_r in Heq.
    apply (inj pretty) in Heq. exact Heq.
Qed.

Lemma identifyPolyhedronType_injective_witness :
  identifyPolyhedronType [site_at "Na" 0 0 0; site_at "Cl" (1/2) 0 0] =
  identifyPolyhedronType [site_at "H" 0 0 0; site_at "H" (1/8) 0 0] /\
  length [site_at "Na" 0 0 0; site_at "Cl" (1/2) 0 0] =
  length [site_at "H" 0 0 0; site_at "H" (1/8) 0 0].
Proof.
  split; [reflexivity|].
  exact (identifyPolyhedronType_injective
           [site_at "Na" 0 0 0; site_at "Cl" (1/2) 0 0]
           [site_at "H" 0 0 0; site_at "H" (1/8) 0 0] eq_refl).
Defined.

(** ** What the bonds depend on *)

Lemma visit_pair_same_geometry (c1 c2 : CrystalStructure)
    s minCut maxCut po i j bonds :
  matrix (lattice c1) = matrix (lattice c2) ->
  map (fun site => (element site, frac site)) (sites c1) =
  map (fun site => (element site, frac site)) (sites c2) ->
  visit_pair c1 s minCut maxCut po i j bonds =
  visit_pair c2 s minCut maxCut po i j bonds.
Proof.
  intros Hm Hs. unfold visit_pair. rewrite Hm.
  assert (Hlook : forall k,
            (fun site => (element site, frac site)) <$> (sites c1 !! k) =
            (fun site => (element site, frac site)) <$> (sites c2 !! k)).
  { assert (Hs' : (fun site => (element site, frac site)) <$> sites c1 =
                  (fun site => (element site, frac site)) <$> sites c2)
      by exact Hs.
    intros k. rewrite <- !list_lookup_fmap, Hs'. reflexivity. }
  pose proof (Hlook i) as Hi. pose proof (Hlook j) as Hj.
  destruct (sites c1 !! i) as [a1|], (sites c2 !! i) as [a2|];
    try discriminate; [|reflexivity].
  destruct (sites c1 !! j) as [b1|], (sites c2 !! j) as [b2|];
    try discriminate; [|reflexivity].
  simpl in Hi, Hj. injection Hi as -> ->. injection Hj as -> ->.
  reflexivity.
Qed.

(** X30. The bonds are computed from the lattice matrix and from the
    element and the fractional coordinates of each site alone: the scalar
    lattice parameters, the periodic-boundary flags and the occupancy,
    label and Cartesian coordinates of the sites are never read. *)
Theorem calculateBonds_reads_geometry_only (c1 c2 : CrystalStructure)
    (scaleFactor minCut maxCut : R)
    (pairOverrides : option (gmap string R)) :
  matrix (lattice c1) = matrix (lattice c2) ->
  map (fun site => (element site, frac site)) (sites c1) =
  map (fun site => (element site, frac site)) (sites c2) ->
  calculateBonds c1 scaleFactor minCut maxCut pairOverrides =
  calculateBonds c2 scaleFactor minCut maxCut pairOverrides.
Proof.
  intros Hm Hs.
  assert (Hlen : length (sites c1) = length (sites c2)).
  { apply (f_equal (@length _)) in Hs. rewrite !length_map in Hs. exact Hs. }
  unfold calculateBonds, inner_loop. rewrite Hlen.
  apply fold_left_ext. intros bonds i.
  apply fold_left_ext. intros bonds' j.
  apply visit_pair_same_geometry; assumption.
Qed.

Lemma calculateBonds_reads_geometry_only_witness :
  matrix (lattice createSiCrystal) = matrix (lattice si_bare) /\
  map (fun site => (element site, frac site)) (sites createSiCrystal) =
  map (fun site => (element site, frac site)) (sites si_bare) /\
  calculateBonds createSiCrystal 1.1 0.7 3.2 None =
  calculateBonds si_bare 1.1 0.7 3.2 None.
Proof.
  split; [reflexivity|]. split; [reflexivity|].
  exact (calculateBonds_reads_geometry_only createSiCrystal si_bare
           1.1 0.7 3.2 None eq_refl eq_refl).
Defined.
